(** * House affordability and mortgage risk calculator: the numeric core

    A shallow embedding of the numeric core of [app.py]: the formula
    library ([clamp], [safe_divide], [pmt], [invert_pmt]), the amortization
    engine, the risk model, the two affordability modes and the scenario
    history kept in the session.

    Numbers.  Python's numbers are modelled by exact rationals [Q]; equality
    of amounts is [Qeq] (written [==]).  Rounding, overflow and the special
    values of binary floating point are outside this model: it describes
    the script at the magnitudes its sidebar produces, where the doubles of
    the script and the rationals agree up to rounding.  Where a double
    behaves differently in kind (a rate so small that [1 + rate] is [1.0]),
    the payment formula is given a second time on doubles, in [Float64].
    What is kept of Python's arithmetic is its partiality: [/] raises
    [ZeroDivisionError] on a zero divisor and [**] raises it for zero to a
    negative power, so every function that divides by a variable returns a
    [result].  A division by a non-zero literal ([/ 100], [/ 12], [/ 0.5])
    cannot raise and is written with the division of [Q]. *)

From Stdlib Require Import QArith Qpower Qabs Qminmax ZArith Lia Lqa List Bool.
From Stdlib Require Import PrimFloat.
From stdpp Require Import base option list gmap strings.

Local Open Scope Q_scope.

(** ** Errors *)

Inductive error : Type :=
  | ZeroDivisionError   (* a Python division fault *)
  | InvalidInput.       (* [st.error] followed by [st.stop()] *)

Inductive result (A : Type) : Type :=
  | Ok (a : A)
  | Err (e : error).
Arguments Ok {A} a.
Arguments Err {A} e.

(** Sequencing: the first fault aborts the computation.  The [x ← m; k]
    notation below is the one of this instance. *)
#[global] Instance result_bind : MBind result :=
  fun A B (k : A -> result B) (m : result A) =>
    match m with
    | Ok a => k a
    | Err e => Err e
    end.

Definition is_ok {A : Type} (m : result A) : bool :=
  match m with Ok _ => true | Err _ => false end.

(** [m] is a result, and [P] holds of it. *)
Definition returns {A : Type} (m : result A) (P : A -> Prop) : Prop :=
  match m with Ok a => P a | Err _ => False end.

(** ** Python's arithmetic on rationals *)

Definition Qlt_bool (x y : Q) : bool := negb (Qle_bool y x).

(** [n / d] *)
Definition py_div (n d : Q) : result Q :=
  if Qeq_bool d 0 then Err ZeroDivisionError else Ok (n / d).

(** [b ** e] for an integer exponent [e] *)
Definition py_pow (b : Q) (e : Z) : result Q :=
  if Qeq_bool b 0 && (e <? 0)%Z then Err ZeroDivisionError else Ok (b ^ e).

(** [min(a, b)] and [max(a, b)]: the first argument wins a tie. *)
Definition py_min (a b : Q) : Q := if Qlt_bool b a then b else a.
Definition py_max (a b : Q) : Q := if Qlt_bool a b then b else a.

(** [abs(x)] *)
Definition py_abs (x : Q) : Q := Qabs x.

(** [int(x)]: truncation toward zero.  The script applies it to
    [years * 12] with [years] the loan term, an integer, for which the
    product is exact in doubles as well. *)
Definition py_int (x : Q) : Z := Z.quot (Qnum x) (Zpos (Qden x)).

(** ** Formula library *)

Definition clamp (value min_val max_val : Q) : Q :=
  py_max min_val (py_min value max_val).


Definition pmt (rate : Q) (nper : Z) (pv : Q) : result Q :=
  if Qeq_bool rate 0 then py_div pv (inject_Z nper)
  else
    pw ← py_pow (1 + rate) (- nper);
    py_div (rate * pv) (1 - pw).

Definition invert_pmt (payment rate : Q) (nper : Z) : result Q :=
  if Qeq_bool rate 0 then Ok (payment * inject_Z nper)
  else
    pw ← py_pow (1 + rate) (- nper);
    py_div (payment * (1 - pw)) rate.

(** ** The payment formula on doubles *)

(** [pmt] and [invert_pmt] once more, on IEEE binary64 numbers, for the
    cases in which rounding changes what the functions do.  Addition,
    subtraction, multiplication and division are those of the processor.
    [**] follows CPython's [float_pow]: its special cases are exact here
    (exponent 0, a NaN base, a zero base, base 1.0); past them CPython calls
    the C library's [pow], for which repeated multiplication stands in, so
    that in this last case the value can differ from the script's in the
    final bits and no [OverflowError] is raised. *)
Module Float64.

Local Open Scope float_scope.

(** [float(n)] for an [int]; exact below 2^53. *)
Fixpoint of_pos (p : positive) : float :=
  match p with
  | xH => 1
  | xO p' => 2 * of_pos p'
  | xI p' => 2 * of_pos p' + 1
  end.

Definition of_Z (n : Z) : float :=
  match n with
  | Z0 => 0
  | Zpos p => of_pos p
  | Zneg p => - of_pos p
  end.

(** [n / d] *)
Definition py_div (n d : float) : result float :=
  if d =? 0 then Err ZeroDivisionError else Ok (n / d).

Fixpoint pow_pos (b : float) (p : positive) : float :=
  match p with
  | xH => b
  | xO p' => let h := pow_pos b p' in h * h
  | xI p' => let h := pow_pos b p' in b * (h * h)
  end.

(** [b ** e] for a [float] and an [int] *)
Definition py_pow (b : float) (e : Z) : result float :=
  if (e =? 0)%Z then Ok 1
  else if negb (b =? b) then Ok b
  else if b =? 0 then
    if (e <? 0)%Z then Err ZeroDivisionError else Ok (pow_pos b (Z.to_pos e))
  else if b =? 1 then Ok 1
  else
    match e with
    | Z0 => Ok 1
    | Zpos p => Ok (pow_pos b p)
    | Zneg p => Ok (1 / pow_pos b p)
    end.

Definition pmt (rate : float) (nper : Z) (pv : float) : result float :=
  if rate =? 0 then py_div pv (of_Z nper)
  else
    pw ← py_pow (1 + rate) (- nper);
    py_div (rate * pv) (1 - pw).

Definition invert_pmt (payment rate : float) (nper : Z) : result float :=
  if rate =? 0 then Ok (payment * of_Z nper)
  else
    pw ← py_pow (1 + rate) (- nper);
    py_div (payment * (1 - pw)) rate.

(** The double nearest to 1e-17, which is what Python reads [1e-17] as. *)
Definition tiny_rate : float := 0x1.70ef54646d497p-57.

End Float64.

(** ** Risk model *)

Definition credit_risks : gmap string Q :=
  <["760+" := 0.1]> (<["720-759" := 0.3]> (<["680-719" := 0.5]>
  (<["640-679" := 0.7]> (<["Under 640" := 1.0]> ∅)))).

(** [d.get(k, dflt)] *)
Definition dict_get (d : gmap string Q) (k : string) (dflt : Q) : Q :=
  default dflt (d !! k).

Definition calculate_risk_score (back_end_dti ltv : Q) (credit_score_band : string)
  : Q :=
  let dti_risk := py_min (back_end_dti / 0.5) 1.0 in
  let ltv_risk := py_min (ltv / 1.0) 1.0 in
  let credit_risk := dict_get credit_risks credit_score_band 0.5 in
  let risk_score := (dti_risk * 0.5 + ltv_risk * 0.3 + credit_risk * 0.2) * 100 in
  py_min 100 (py_max 0 risk_score).

Inductive risk_label : Type := Low | Moderate | High | VeryHigh.

(** The label component of [get_risk_label_and_color]. *)
Definition get_risk_label (risk_score : Q) : risk_label :=
  if Qlt_bool risk_score 25 then Low
  else if Qlt_bool risk_score 50 then Moderate
  else if Qlt_bool risk_score 75 then High
  else VeryHigh.

(** The risk-score smoke test under [if __name__ == "__main__"]: the word
    it prints after "Test". *)
Definition risk_smoke_test : string :=
  let test_risk := calculate_risk_score 0.36 0.8 "720-759" in
  if Qle_bool 30 test_risk && Qle_bool test_risk 60
  then "PASSED" else "FAILED".

(** ** Amortization engine *)

Record amort_row : Type := {
  Month : Z;
  Beginning_Balance : Q;
  Interest : Q;
  Principal : Q;
  Ending_Balance : Q;
  Cumulative_Interest : Q
}.

(** The body of [for month in range(1, total_months + 1)]: [fuel] counts the
    months still to visit, and the [break] on a cleared balance ends the
    list. *)
Fixpoint amortization_loop (fuel : nat) (month : Z)
    (monthly_rate monthly_payment balance cumulative_interest : Q)
  : list amort_row :=
  match fuel with
  | O => []
  | S fuel' =>
      let interest := balance * monthly_rate in
      let principal := monthly_payment - interest in
      let balance' := py_max 0 (balance - principal) in
      let cumulative_interest' := cumulative_interest + interest in
      let row := {| Month := month;
                    Beginning_Balance := balance' + principal;
                    Interest := interest;
                    Principal := principal;
                    Ending_Balance := balance';
                    Cumulative_Interest := cumulative_interest' |} in
      row :: (if Qle_bool balance' 0 then []
              else amortization_loop fuel' (month + 1) monthly_rate
                     monthly_payment balance' cumulative_interest')
  end.

Definition make_amortization_schedule (loan_amount annual_rate years : Q)
  : result (list amort_row) :=
  let monthly_rate := annual_rate / 100 / 12 in
  let total_months := py_int (years * 12) in
  monthly_payment ← pmt monthly_rate total_months loan_amount;
  Ok (amortization_loop (Z.to_nat total_months) 1 monthly_rate
        monthly_payment loan_amount 0).

(** ** Inputs of one run of the script *)

Inductive calculation_mode : Type := SetHomePrice | FindMaxAffordability.

(** The sidebar values as the script reads them.  [home_price] is [None] in
    "Find Max Affordability" mode; [max_front_dti] and [max_back_dti] are
    the widget percentages already divided by 100, as the script binds
    them. *)
Record inputs : Type := {
  annual_income : Q;
  existing_debt : Q;
  credit_score : string;
  price_mode : calculation_mode;
  home_price : option Q;
  down_payment_amount : Q;
  down_payment_percent : Q;
  interest_rate : Q;
  loan_term : Z;
  property_tax_rate : Q;
  home_insurance : Q;
  hoa_fees : Q;
  pmi_rate : Q;
  max_front_dti : Q;
  max_back_dti : Q
}.

(** What the core calculation binds for the rest of the script. *)
Record calculation : Type := {
  c_home_price : Q;
  c_max_affordable_price : Q;
  c_loan_amount : Q;
  c_monthly_pi : Q;
  c_monthly_tax : Q;
  c_monthly_insurance : Q;
  c_monthly_hoa : Q;
  c_monthly_pmi : Q;
  c_total_monthly_payment : Q;
  c_front_end_dti : Q;
  c_back_end_dti : Q;
  c_ltv : Q
}.

(** ** Priced mode: the branch [price_mode == "Set Home Price" and home_price] *)

Definition priced_mode (i : inputs) (price : Q) : result calculation :=
  let monthly_income := annual_income i / 12 in
  let loan_amount := price - down_payment_amount i in
  if Qle_bool price (down_payment_amount i) then Err InvalidInput
  else
    let monthly_rate := interest_rate i / 100 / 12 in
    let total_months := (loan_term i * 12)%Z in
    monthly_pi ← pmt monthly_rate total_months loan_amount;
    let monthly_tax := price * property_tax_rate i / 100 / 12 in
    let monthly_insurance := home_insurance i / 12 in
    let monthly_hoa := hoa_fees i in
    let monthly_pmi :=
      if Qlt_bool (down_payment_percent i) 20
      then loan_amount * pmi_rate i / 100 / 12 else 0 in
    let total_monthly_payment :=
      monthly_pi + monthly_tax + monthly_insurance + monthly_hoa + monthly_pmi in
    front_end_dti ← py_div total_monthly_payment monthly_income;
    back_end_dti ← py_div (total_monthly_payment + existing_debt i) monthly_income;
    ltv ← py_div loan_amount price;
    Ok {| c_home_price := price;
          c_max_affordable_price := price;
          c_loan_amount := loan_amount;
          c_monthly_pi := monthly_pi;
          c_monthly_tax := monthly_tax;
          c_monthly_insurance := monthly_insurance;
          c_monthly_hoa := monthly_hoa;
          c_monthly_pmi := monthly_pmi;
          c_total_monthly_payment := total_monthly_payment;
          c_front_end_dti := front_end_dti;
          c_back_end_dti := back_end_dti;
          c_ltv := ltv |}.

(** ** Max-affordability mode *)

Definition max_payment_constraint (i : inputs) : Q :=
  let monthly_income := annual_income i / 12 in
  let max_payment_front := monthly_income * max_front_dti i in
  let max_payment_back := monthly_income * max_back_dti i - existing_debt i in
  py_min max_payment_front max_payment_back.

(** The total monthly payment the loop body estimates at a price whose loan
    is positive. *)
Definition estimate_total (i : inputs) (estimated_price : Q) : result Q :=
  let estimated_loan := estimated_price - down_payment_amount i in
  let monthly_rate := interest_rate i / 100 / 12 in
  let total_months := (loan_term i * 12)%Z in
  monthly_pi ← pmt monthly_rate total_months estimated_loan;
  let monthly_tax := estimated_price * property_tax_rate i / 100 / 12 in
  let monthly_insurance := home_insurance i / 12 in
  let monthly_hoa := hoa_fees i in
  dp_ratio ← py_div (down_payment_amount i) estimated_price;
  let monthly_pmi :=
    if Qlt_bool dp_ratio 0.20
    then estimated_loan * pmi_rate i / 100 / 12 else 0 in
  Ok (monthly_pi + monthly_tax + monthly_insurance + monthly_hoa + monthly_pmi).

(** How the [for _ in range(10)] loop was left: the price bound to
    [estimated_price], the number of passes through the body that were
    started, and whether the tolerance test executed [break]. *)
Record loop_exit : Type := {
  exit_price : Q;
  exit_iterations : nat;
  exit_break : bool
}.

Fixpoint price_loop (i : inputs) (fuel : nat) (done : nat) (estimated_price : Q)
  : result loop_exit :=
  match fuel with
  | O => Ok {| exit_price := estimated_price;
               exit_iterations := done;
               exit_break := false |}
  | S fuel' =>
      let estimated_loan := estimated_price - down_payment_amount i in
      if Qle_bool estimated_loan 0 then
        (* continue *)
        price_loop i fuel' (S done) (down_payment_amount i * 2)
      else
        estimated_total ← estimate_total i estimated_price;
        if Qlt_bool (py_abs (estimated_total - max_payment_constraint i)) 10 then
          (* break *)
          Ok {| exit_price := estimated_price;
                exit_iterations := S done;
                exit_break := true |}
        else
          ratio ← py_div (max_payment_constraint i) estimated_total;
          price_loop i fuel' (S done) (estimated_price * ratio)
  end.

Definition seed_price : Q := 400000.

(** The values set after the loop, from the price it left. *)
Definition finish_max_affordability (i : inputs) (estimated_price : Q)
  : result calculation :=
  let monthly_income := annual_income i / 12 in
  let monthly_rate := interest_rate i / 100 / 12 in
  let total_months := (loan_term i * 12)%Z in
  let price := py_max estimated_price (down_payment_amount i + 1000) in
  let loan_amount := price - down_payment_amount i in
  monthly_pi ← pmt monthly_rate total_months loan_amount;
  let monthly_tax := price * property_tax_rate i / 100 / 12 in
  let monthly_insurance := home_insurance i / 12 in
  let monthly_hoa := hoa_fees i in
  dp_ratio ← py_div (down_payment_amount i) price;
  let monthly_pmi :=
    if Qlt_bool dp_ratio 0.20
    then loan_amount * pmi_rate i / 100 / 12 else 0 in
  let total_monthly_payment :=
    monthly_pi + monthly_tax + monthly_insurance + monthly_hoa + monthly_pmi in
  front_end_dti ← py_div total_monthly_payment monthly_income;
  back_end_dti ← py_div (total_monthly_payment + existing_debt i) monthly_income;
  ltv ← py_div loan_amount price;
  Ok {| c_home_price := price;
        c_max_affordable_price := price;
        c_loan_amount := loan_amount;
        c_monthly_pi := monthly_pi;
        c_monthly_tax := monthly_tax;
        c_monthly_insurance := monthly_insurance;
        c_monthly_hoa := monthly_hoa;
        c_monthly_pmi := monthly_pmi;
        c_total_monthly_payment := total_monthly_payment;
        c_front_end_dti := front_end_dti;
        c_back_end_dti := back_end_dti;
        c_ltv := ltv |}.

Definition max_affordability_mode (i : inputs) : result (loop_exit * calculation) :=
  ex ← price_loop i 10 0 seed_price;
  c ← finish_max_affordability i (exit_price ex);
  Ok (ex, c).

(** Truth value of [home_price] in [... and home_price]. *)
Definition truthy_price (p : option Q) : option Q :=
  match p with
  | Some x => if Qeq_bool x 0 then None else Some x
  | None => None
  end.

(** The core calculation: the [if]/[else] on the mode. *)
Definition core_calculation (i : inputs) : result calculation :=
  match price_mode i, truthy_price (home_price i) with
  | SetHomePrice, Some price => priced_mode i price
  | _, _ => c ← max_affordability_mode i; Ok (snd c)
  end.

(** ** Scenario history and one run of the script *)

(** An entry of [st.session_state.scenarios].  The three computed fields are
    [None] when the entry is created. *)
Record scenario : Type := {
  s_timestamp : string;
  s_annual_income : Q;
  s_home_price : option Q;
  s_down_payment_amount : Q;
  s_interest_rate : Q;
  s_loan_term : Z;
  s_monthly_payment : option Q;
  s_back_end_dti : option Q;
  s_ltv : option Q
}.

(** The sidebar button that triggered the run, if any.  (The two "Sync"
    buttons, like "Reset Inputs", only call [st.rerun()].) *)
Inductive button : Type := NoButton | SaveScenario | ResetInputs.

(** [scenarios.pop(0)] *)
Definition pop_front (l : list scenario) : list scenario := drop 1 l.

(** The "Save Scenario" handler; [now] is the formatted clock reading. *)
Definition save_scenario (scenarios : list scenario) (now : string) (i : inputs)
  : list scenario :=
  let entry := {| s_timestamp := now;
                  s_annual_income := annual_income i;
                  s_home_price := home_price i;
                  s_down_payment_amount := down_payment_amount i;
                  s_interest_rate := interest_rate i;
                  s_loan_term := loan_term i;
                  s_monthly_payment := None;
                  s_back_end_dti := None;
                  s_ltv := None |} in
  let scenarios' := scenarios ++ [entry] in
  if (2 <? length scenarios')%nat then pop_front scenarios' else scenarios'.

(** [d.update({'monthly_payment': ..., 'back_end_dti': ..., 'ltv': ...})] *)
Definition update_computed (c : calculation) (s : scenario) : scenario :=
  {| s_timestamp := s_timestamp s;
     s_annual_income := s_annual_income s;
     s_home_price := s_home_price s;
     s_down_payment_amount := s_down_payment_amount s;
     s_interest_rate := s_interest_rate s;
     s_loan_term := s_loan_term s;
     s_monthly_payment := Some (c_total_monthly_payment c);
     s_back_end_dti := Some (c_back_end_dti c);
     s_ltv := Some (c_ltv c) |}.

(** [if scenarios: scenarios[-1].update(...)]: the last entry is changed in
    place, an empty list is left alone. *)
Definition update_last_scenario (scenarios : list scenario) (c : calculation)
  : list scenario :=
  alter (update_computed c) (pred (length scenarios)) scenarios.

(** What a completed run displays. *)
Record outcome : Type := {
  o_calculation : calculation;
  o_risk_score : Q;
  o_risk_label : risk_label;
  o_total_interest : Q
}.

(** One execution of the script on the session's scenario list.  A run that
    stops ([st.stop()]) or faults keeps what the save handler did and does
    not reach the update of the last entry.  "Reset Inputs" restarts the
    script ([st.rerun()]) before anything is computed, and the restarted
    script runs to its end with no button pressed. *)
Definition script_run (scenarios : list scenario) (now : string) (b : button)
    (i : inputs) : list scenario * result outcome :=
  let scenarios1 :=
    match b with
    | SaveScenario => save_scenario scenarios now i
    | NoButton | ResetInputs => scenarios
    end in
  match core_calculation i with
  | Err e => (scenarios1, Err e)
  | Ok c =>
      let risk_score :=
        calculate_risk_score (c_back_end_dti c) (c_ltv c) (credit_score i) in
      let total_interest :=
        c_monthly_pi c * inject_Z (loan_term i) * 12 - c_loan_amount c in
      (update_last_scenario scenarios1 c,
       Ok {| o_calculation := c;
             o_risk_score := risk_score;
             o_risk_label := get_risk_label risk_score;
             o_total_interest := total_interest |})
  end.

(** ** The ranges the sidebar widgets enforce *)

Definition loan_term_option (t : Z) : Prop := t = 15%Z \/ t = 20%Z \/ t = 30%Z.

Record valid_inputs (i : inputs) : Prop := {
  vi_income : 1000 <= annual_income i;
  vi_debt : 0 <= existing_debt i;
  vi_price : match home_price i with Some p => 1000 <= p | None => True end;
  vi_mode : price_mode i = SetHomePrice <-> home_price i <> None;
  vi_down : 0 <= down_payment_amount i;
  vi_down_pct : 0 <= down_payment_percent i <= 100;
  vi_rate : 0.1 <= interest_rate i <= 20;
  vi_term : loan_term_option (loan_term i);
  vi_tax : 0 <= property_tax_rate i <= 5;
  vi_insurance : 0 <= home_insurance i;
  vi_hoa : 0 <= hoa_fees i;
  vi_pmi : 0 <= pmi_rate i <= 2;
  vi_front : 0.1 <= max_front_dti i <= 0.5;
  vi_back : 0.1 <= max_back_dti i <= 0.6
}.

(** ** The statements of the specification, in its own words *)

(** The fixed credit table of the specification, unknown bands at 0.5. *)
Definition creditRisk_spec (band : string) : Q :=
  if String.eqb band "760+" then 0.1
  else if String.eqb band "720-759" then 0.3
  else if String.eqb band "680-719" then 0.5
  else if String.eqb band "640-679" then 0.7
  else if String.eqb band "Under 640" then 1.0
  else 0.5.

(** [clamp(100 * (0.5*min(dti/0.5, 1) + 0.3*min(ltv, 1) + 0.2*creditRisk), 0, 100)] *)
Definition riskScore_spec (dti ltv : Q) (band : string) : Q :=
  Qmax 0 (Qmin (100 * (0.5 * Qmin (dti / 0.5) 1 + 0.3 * Qmin ltv 1
                       + 0.2 * creditRisk_spec band)) 100).

(** ** Auxiliary notions of the statements *)

(** The balance that [months] further level payments retire: the value
    before a payment is the value after it plus the payment, discounted by
    one month. *)
Fixpoint remaining_balance (monthly_rate monthly_payment : Q) (months : nat) : Q :=
  match months with
  | O => 0
  | S months' =>
      (remaining_balance monthly_rate monthly_payment months' + monthly_payment)
      / (1 + monthly_rate)
  end.

(** The invariant of a row, as the data model states it. *)
Definition row_invariant (monthly_rate : Q) (r : amort_row) : Prop :=
  Ending_Balance r == Qmax 0 (Beginning_Balance r - Principal r)
  /\ Interest r == Beginning_Balance r * monthly_rate.

Definition cumulative_nondecreasing (rows : list amort_row) : Prop :=
  forall (i j : nat) (a b : amort_row),
    (i <= j)%nat -> rows !! i = Some a -> rows !! j = Some b ->
    Cumulative_Interest a <= Cumulative_Interest b.

(** What an entry records of the inputs at the time it was saved. *)
Definition snapshot_inputs (s : scenario)
  : string * Q * option Q * Q * Q * Z :=
  (s_timestamp s, s_annual_income s, s_home_price s,
   s_down_payment_amount s, s_interest_rate s, s_loan_term s).

(** The scenario lists a session can hold: empty at first, then whatever the
    runs of the script leave. *)
Inductive session_scenarios : list scenario -> Prop :=
  | session_start : session_scenarios []
  | session_run (scenarios : list scenario) (now : string) (b : button)
      (i : inputs) :
      session_scenarios scenarios ->
      session_scenarios (fst (script_run scenarios now b i)).

(** ** Concrete inputs used below *)

(** The sidebar at its default values, except for the income, the debts,
    the mode, the price and the two down-payment fields. *)
Definition sidebar (income debt : Q) (mode : calculation_mode)
    (price : option Q) (down_amount down_percent : Q) : inputs :=
  {| annual_income := income;
     existing_debt := debt;
     credit_score := "720-759";
     price_mode := mode;
     home_price := price;
     down_payment_amount := down_amount;
     down_payment_percent := down_percent;
     interest_rate := 6.5;
     loan_term := 30;
     property_tax_rate := 1.2;
     home_insurance := 1200;
     hoa_fees := 0;
     pmi_rate := 0.5;
     max_front_dti := 0.28;
     max_back_dti := 0.36 |}.

(** A low income against a large down payment: the seed price is far too
    dear, and the rescaled price falls below the down payment. *)
Definition oscillating_inputs : inputs :=
  sidebar 12000 0 FindMaxAffordability None 200000 20.

(** An income that meets the seed price's payment to within the tolerance:
    the loop stops in its first pass. *)
Definition converging_inputs : inputs :=
  sidebar 108086 500 FindMaxAffordability None 80000 20.

(** Priced mode, a 20% down payment entered with a percent field of 10. *)
Definition pmi_charged_inputs : inputs :=
  sidebar 80000 500 SetHomePrice (Some 400000) 80000 10.

(** Priced mode, a 5% down payment entered with a percent field of 20. *)
Definition pmi_omitted_inputs : inputs :=
  sidebar 80000 500 SetHomePrice (Some 400000) 20000 20.

(** Priced mode, the whole price paid down. *)
Definition fully_paid_inputs : inputs :=
  sidebar 80000 500 SetHomePrice (Some 400000) 400000 100.

(** ** Further parts of the script *)

Definition get_risk_label_and_color (risk_score : Q) : string * string :=
  if Qlt_bool risk_score 25 then ("Low", "#28a745")
  else if Qlt_bool risk_score 50 then ("Moderate", "#ffc107")
  else if Qlt_bool risk_score 75 then ("High", "#fd7e14")
  else ("Very High", "#dc3545").

(** The label strings, and the order of the labels from mildest to
    gravest. *)
Definition label_name (l : risk_label) : string :=
  match l with
  | Low => "Low"
  | Moderate => "Moderate"
  | High => "High"
  | VeryHigh => "Very High"
  end.

Definition label_rank (l : risk_label) : nat :=
  match l with
  | Low => 0
  | Moderate => 1
  | High => 2
  | VeryHigh => 3
  end.

(** [total_interest = (monthly_pi * loan_term * 12) - loan_amount] *)
Definition total_interest (i : inputs) (c : calculation) : Q :=
  c_monthly_pi c * inject_Z (loan_term i) * 12 - c_loan_amount c.

(** The test of the "DTI exceeds recommended limits" banner. *)
Definition dti_limit_error (i : inputs) (c : calculation) : bool :=
  Qlt_bool (max_back_dti i) (c_back_end_dti c)
  || Qlt_bool (max_front_dti i) (c_front_end_dti c).

(** *** Sensitivity analysis *)

(** A list built by [append] in a [for] loop whose body can fault. *)
Fixpoint for_each {A B : Type} (f : A -> result B) (l : list A)
  : result (list B) :=
  match l with
  | [] => Ok []
  | x :: l' => y ← f x; ys ← for_each f l'; Ok (y :: ys)
  end.

Definition sensitivity_rates (i : inputs) (rate_step : Q) : list Q :=
  [interest_rate i - rate_step * 2; interest_rate i - rate_step;
   interest_rate i;
   interest_rate i + rate_step; interest_rate i + rate_step * 2].

(** The body of [for rate in rates], given the value bound to
    [max_payment_constraint]. *)
Definition rate_sensitivity_price (i : inputs) (c : calculation)
    (constraint rate : Q) : result Q :=
  let monthly_rate_sens := rate / 100 / 12 in
  let max_pi :=
    constraint - (c_monthly_tax c + c_monthly_insurance c + c_monthly_hoa c) in
  if Qlt_bool 0 monthly_rate_sens then
    max_loan_sens ← invert_pmt max_pi monthly_rate_sens (loan_term i * 12);
    let max_price_sens := max_loan_sens + down_payment_amount i in
    Ok max_price_sens
  else Ok (c_max_affordable_price c).

(** What the chart code can raise: a fault of the arithmetic, or the use of
    a name that no executed statement has bound. *)
Inductive chart_exception : Type :=
  | ArithmeticFault (e : error)
  | NameError (name : string).

Inductive chart_result (A : Type) : Type :=
  | Drawn (a : A)
  | Raised (x : chart_exception).
Arguments Drawn {A} a.
Arguments Raised {A} x.

(** The value bound to [max_payment_constraint] when the charts are drawn:
    the name is assigned in the max-affordability branch only. *)
Definition bound_max_payment_constraint (i : inputs) : option Q :=
  match price_mode i, truthy_price (home_price i) with
  | SetHomePrice, Some _ => None
  | _, _ => Some (max_payment_constraint i)
  end.

(** The prices of the "Interest Rate Impact" chart.  The first statement of
    the loop body that reads [max_payment_constraint] is reached for the
    first rate of the (non-empty) list. *)
Definition rate_sensitivity (i : inputs) (c : calculation) (rate_step : Q)
  : chart_result (list Q) :=
  match bound_max_payment_constraint i with
  | None => Raised (NameError "max_payment_constraint")
  | Some constraint =>
      match for_each (rate_sensitivity_price i c constraint)
                     (sensitivity_rates i rate_step) with
      | Ok prices => Drawn prices
      | Err e => Raised (ArithmeticFault e)
      end
  end.

Definition dp_percents (i : inputs) (dp_step : Q) : list Q :=
  [py_max 0 (down_payment_percent i - dp_step * 2);
   py_max 0 (down_payment_percent i - dp_step);
   down_payment_percent i;
   py_min 50 (down_payment_percent i + dp_step);
   py_min 50 (down_payment_percent i + dp_step * 2)].

(** The body of [for dp_pct in dp_percents]; the loop is run by
    [charts_tab] below, after the rate chart. *)
Definition dp_sensitivity_payment (i : inputs) (c : calculation) (dp_pct : Q)
  : result Q :=
  let monthly_rate := interest_rate i / 100 / 12 in
  let total_months := (loan_term i * 12)%Z in
  let dp_amount_sens := c_home_price c * dp_pct / 100 in
  let loan_amount_sens := c_home_price c - dp_amount_sens in
  monthly_pi_sens ← pmt monthly_rate total_months loan_amount_sens;
  let monthly_pmi_sens :=
    if Qlt_bool dp_pct 20
    then loan_amount_sens * pmi_rate i / 100 / 12 else 0 in
  Ok (monthly_pi_sens + c_monthly_tax c + c_monthly_insurance c
      + c_monthly_hoa c + monthly_pmi_sens).

(** What the "Charts" tab computes, in the order of the script: the
    amortization schedule, the prices of the rate chart, then the payments
    of the down-payment chart.  An exception in one step ends the run, and
    the later steps are not reached. *)
Record charts : Type := {
  ch_amortization : list amort_row;
  ch_prices : list Q;
  ch_payments : list Q
}.

Definition charts_tab (i : inputs) (c : calculation) (rate_step dp_step : Q)
  : chart_result charts :=
  match make_amortization_schedule (c_loan_amount c) (interest_rate i)
          (inject_Z (loan_term i)) with
  | Err e => Raised (ArithmeticFault e)
  | Ok amortization =>
      match rate_sensitivity i c rate_step with
      | Raised x => Raised x
      | Drawn prices =>
          match for_each (dp_sensitivity_payment i c)
                         (dp_percents i dp_step) with
          | Err e => Raised (ArithmeticFault e)
          | Ok payments =>
              Drawn {| ch_amortization := amortization;
                       ch_prices := prices;
                       ch_payments := payments |}
          end
      end
  end.

(** Lists of amounts in order. *)
Definition nondecreasing (l : list Q) : Prop :=
  forall (j k : nat) (x y : Q),
    (j <= k)%nat -> l !! j = Some x -> l !! k = Some y -> x <= y.

Definition nonincreasing (l : list Q) : Prop :=
  forall (j k : nat) (x y : Q),
    (j <= k)%nat -> l !! j = Some x -> l !! k = Some y -> y <= x.

(** What both branches establish of the values they bind, [monthly_pmi]
    apart. *)
Definition bundle_facts (i : inputs) (c : calculation) : Prop :=
  c_max_affordable_price c = c_home_price c
  /\ c_loan_amount c = c_home_price c - down_payment_amount i
  /\ pmt (interest_rate i / 100 / 12) (loan_term i * 12) (c_loan_amount c)
     = Ok (c_monthly_pi c)
  /\ c_monthly_tax c = c_home_price c * property_tax_rate i / 100 / 12
  /\ c_monthly_insurance c = home_insurance i / 12
  /\ c_monthly_hoa c = hoa_fees i
  /\ c_total_monthly_payment c
     = c_monthly_pi c + c_monthly_tax c + c_monthly_insurance c
       + c_monthly_hoa c + c_monthly_pmi c
  /\ c_front_end_dti c = c_total_monthly_payment c / (annual_income i / 12)
  /\ c_back_end_dti c
     = (c_total_monthly_payment c + existing_debt i) / (annual_income i / 12)
  /\ c_ltv c = c_loan_amount c / c_home_price c
  /\ ~ annual_income i / 12 == 0
  /\ ~ c_home_price c == 0.

(** The existing debts of [oscillating_inputs] raised above the back-end
    allowance of its income: the target payment is negative. *)
Definition indebted_inputs : inputs :=
  sidebar 12000 500 FindMaxAffordability None 200000 20.

(** The bundle of a 400,000 home with 80,000 down, amounts to the dollar. *)
Definition seed_price_calculation : calculation :=
  {| c_home_price := 400000;
     c_max_affordable_price := 400000;
     c_loan_amount := 320000;
     c_monthly_pi := 2023;
     c_monthly_tax := 400;
     c_monthly_insurance := 100;
     c_monthly_hoa := 0;
     c_monthly_pmi := 0;
     c_total_monthly_payment := 2523;
     c_front_end_dti := 0.28;
     c_back_end_dti := 0.34;
     c_ltv := 0.8 |}.

(** * Properties *)

(** ** Comparisons, minimum and maximum *)

Lemma Qlt_bool_iff (x y : Q) : Qlt_bool x y = true <-> x < y.
Proof.
  unfold Qlt_bool. rewrite negb_true_iff, <- not_true_iff_false, Qle_bool_iff.
  split; [apply Qnot_le_lt | apply Qlt_not_le].
Qed.

Lemma Qlt_bool_false_iff (x y : Q) : Qlt_bool x y = false <-> y <= x.
Proof.
  unfold Qlt_bool. rewrite negb_false_iff. apply Qle_bool_iff.
Qed.

Lemma Qle_bool_false_iff (x y : Q) : Qle_bool x y = false <-> y < x.
Proof.
  rewrite <- not_true_iff_false, Qle_bool_iff.
  split; [apply Qnot_le_lt | apply Qlt_not_le].
Qed.

Lemma Qeq_bool_false_iff (x y : Q) : Qeq_bool x y = false <-> ~ x == y.
Proof.
  rewrite <- not_true_iff_false, Qeq_bool_iff. reflexivity.
Qed.

Lemma py_min_cases (a b : Q) :
  (b < a /\ py_min a b == b) \/ (a <= b /\ py_min a b == a).
Proof.
  unfold py_min. destruct (Qlt_bool b a) eqn:E.
  - left. split; [now apply Qlt_bool_iff | reflexivity].
  - right. split; [now apply Qlt_bool_false_iff | reflexivity].
Qed.

Lemma py_max_cases (a b : Q) :
  (a < b /\ py_max a b == b) \/ (b <= a /\ py_max a b == a).
Proof.
  unfold py_max. destruct (Qlt_bool a b) eqn:E.
  - left. split; [now apply Qlt_bool_iff | reflexivity].
  - right. split; [now apply Qlt_bool_false_iff | reflexivity].
Qed.

(** Every [py_min], [py_max], [Qmin] and [Qmax] of the goal, innermost
    first, is replaced by a variable constrained by its two cases; what is
    left is linear arithmetic. *)
Ltac no_minmax t :=
  lazymatch t with
  | context [py_min _ _] => fail
  | context [py_max _ _] => fail
  | context [Qmin _ _] => fail
  | context [Qmax _ _] => fail
  | _ => idtac
  end.

Ltac name_minmax_with f cases :=
  match goal with
  | |- context [f ?a ?b] =>
      no_minmax a; no_minmax b;
      let m := fresh "m" in
      let H := fresh "Hm" in
      pose proof (cases a b) as H; set (m := f a b) in *; clearbody m
  end.

Ltac split_cases :=
  repeat match goal with
  | H : (_ /\ _) \/ (_ /\ _) |- _ => destruct H as [[? ?] | [? ?]]
  end.

(** Division by a literal becomes multiplication by its inverse. *)
Ltac const_div :=
  unfold Qdiv in *;
  repeat match goal with
  | |- context [Qinv (?n # ?d)] =>
      let v := eval cbv in (Qinv (n # d)) in change (Qinv (n # d)) with v in *
  | H : context [Qinv (?n # ?d)] |- _ =>
      let v := eval cbv in (Qinv (n # d)) in change (Qinv (n # d)) with v in *
  end.

Ltac minmax_lra :=
  const_div;
  repeat first
    [ name_minmax_with py_min py_min_cases
    | name_minmax_with py_max py_max_cases
    | name_minmax_with Qmin Q.min_spec
    | name_minmax_with Qmax Q.max_spec ];
  split_cases; lra.

(** ** Risk model *)

Lemma credit_risk_table (band : string) :
  dict_get credit_risks band 0.5 = creditRisk_spec band.
Proof.
  unfold dict_get, creditRisk_spec, credit_risks.
  repeat match goal with
  | |- context [String.eqb band ?k] =>
      destruct (String.eqb_spec band k) as [-> | ?]; [vm_compute; reflexivity |]
  end.
  rewrite !lookup_insert_ne by congruence.
  rewrite lookup_empty. reflexivity.
Qed.

Lemma creditRisk_spec_range (band : string) :
  0.1 <= creditRisk_spec band <= 1.
Proof.
  unfold creditRisk_spec.
  repeat (destruct (String.eqb band _); [split; discriminate |]).
  split; discriminate.
Qed.

(** C4.  The risk score is the clamped weighted sum of the specification,
    with the credit weight read from the fixed table and 0.5 for any other
    band, and it lies in [0, 100].  (This holds for every DTI and LTV, in
    particular for the non-negative ones.) *)
Theorem calculate_risk_score_formula (dti ltv : Q) (band : string) :
  calculate_risk_score dti ltv band == riskScore_spec dti ltv band
  /\ 0 <= calculate_risk_score dti ltv band <= 100.
Proof.
  unfold calculate_risk_score, riskScore_spec.
  rewrite credit_risk_table.
  pose proof (creditRisk_spec_range band) as Hc.
  set (c := creditRisk_spec band) in *. clearbody c.
  minmax_lra.
Qed.

(** Both arguments of the monotonicity statement, at once. *)
Lemma calculate_risk_score_monotone (d1 d2 l1 l2 : Q) (band : string) :
  d1 <= d2 -> l1 <= l2 ->
  calculate_risk_score d1 l1 band <= calculate_risk_score d2 l2 band.
Proof.
  intros Hd Hl. unfold calculate_risk_score.
  set (c := dict_get credit_risks band 0.5). clearbody c.
  minmax_lra.
Qed.

(** C5.  The risk score is non-decreasing in the back-end DTI for a fixed
    LTV and credit band, and non-decreasing in the LTV for a fixed back-end
    DTI and credit band. *)
Theorem risk_score_monotone :
  (forall (d1 d2 l : Q) (c : string),
      d1 <= d2 -> calculate_risk_score d1 l c <= calculate_risk_score d2 l c)
  /\ (forall (d l1 l2 : Q) (c : string),
      l1 <= l2 -> calculate_risk_score d l1 c <= calculate_risk_score d l2 c).
Proof.
  split; intros; apply calculate_risk_score_monotone;
    first [assumption | apply Qle_refl].
Qed.

Lemma risk_score_monotone_witness :
  (0.2 <= 0.4
   /\ calculate_risk_score 0.2 0.8 "760+" <= calculate_risk_score 0.4 0.8 "760+")
  /\ (0.5 <= 0.9
      /\ calculate_risk_score 0.3 0.5 "760+"
         <= calculate_risk_score 0.3 0.9 "760+").
Proof.
  assert (H1 : 0.2 <= 0.4) by lra.
  assert (H2 : 0.5 <= 0.9) by lra.
  split; (split; [assumption |]).
  - apply (proj1 risk_score_monotone 0.2 0.4 0.8 "760+" H1).
  - apply (proj2 risk_score_monotone 0.3 0.5 0.9 "760+" H2).
Defined.

(** The two reference values of the specification. *)
Example risk_score_extremes :
  calculate_risk_score 0 0 "760+" == 2
  /\ calculate_risk_score 1.0 1.0 "Under 640" == 100.
Proof.
  split; vm_compute; reflexivity.
Qed.

(** The score of the smoke-test call, over the rationals (in the doubles
    of the script it is 65.99999999999999). *)
Lemma smoke_risk_score_is_66 :
  calculate_risk_score 0.36 0.8 "720-759" == 66
  /\ get_risk_label (calculate_risk_score 0.36 0.8 "720-759") = High.
Proof.
  split; vm_compute; reflexivity.
Qed.

(** C6.  The code does not meet the bound of its own smoke test: the score
    of [calculate_risk_score(0.36, 0.8, "720-759")] is above 60, outside
    [30, 60], and the test prints "FAILED". *)
Theorem risk_smoke_test_fails :
  risk_smoke_test = "FAILED"
  /\ 60 < calculate_risk_score 0.36 0.8 "720-759"
  /\ ~ (30 <= calculate_risk_score 0.36 0.8 "720-759" <= 60).
Proof.
  split; [vm_compute; reflexivity |].
  split; [vm_compute; reflexivity |].
  intros [_ H]. vm_compute in H. apply H. reflexivity.
Qed.

(** ** Formula library *)

Lemma py_div_ok (n d : Q) : ~ d == 0 -> py_div n d = Ok (n / d).
Proof.
  intros H. unfold py_div.
  apply Qeq_bool_false_iff in H. rewrite H. reflexivity.
Qed.

Lemma py_div_zero (n d : Q) : d == 0 -> py_div n d = Err ZeroDivisionError.
Proof.
  intros H. unfold py_div.
  apply Qeq_bool_iff in H. rewrite H. reflexivity.
Qed.

Lemma py_pow_ok (b : Q) (e : Z) : ~ b == 0 -> py_pow b e = Ok (b ^ e).
Proof.
  intros H. unfold py_pow.
  apply Qeq_bool_false_iff in H. rewrite H. reflexivity.
Qed.

Lemma bind_ok {A B : Type} (a : A) (k : A -> result B) :
  (Ok a ≫= k) = k a.
Proof. reflexivity. Qed.

Lemma bind_err {A B : Type} (e : error) (k : A -> result B) :
  (Err e ≫= k) = Err e.
Proof. reflexivity. Qed.

(** The discount factor [(1 + rate) ** -nper] of a positive rate over at
    least one period lies strictly between 0 and 1. *)
Lemma discount_factor_range (rate : Q) (nper : Z) :
  0 < rate -> (0 < nper)%Z -> 0 < (1 + rate) ^ (- nper) < 1.
Proof.
  intros Hr Hn.
  assert (H1 : 1 < (1 + rate) ^ nper) by (apply Qpower_1_lt; [lra | assumption]).
  rewrite Qpower_opp. split.
  - apply Qinv_lt_0_compat. lra.
  - apply Qlt_shift_inv_r; lra.
Qed.

Lemma inject_Z_pos (n : Z) : (0 < n)%Z -> 0 < inject_Z n.
Proof.
  intros H. change 0 with (inject_Z 0). rewrite <- Zlt_Qlt. assumption.
Qed.

Lemma pmt_zero_rate (rate : Q) (nper : Z) (pv : Q) :
  rate == 0 -> (0 < nper)%Z -> pmt rate nper pv = Ok (pv / inject_Z nper).
Proof.
  intros Hr Hn. unfold pmt.
  apply Qeq_bool_iff in Hr. rewrite Hr.
  apply py_div_ok. pose proof (inject_Z_pos nper Hn). lra.
Qed.

Lemma pmt_positive_rate (rate : Q) (nper : Z) (pv : Q) :
  0 < rate -> (0 < nper)%Z ->
  pmt rate nper pv = Ok (rate * pv / (1 - (1 + rate) ^ (- nper))).
Proof.
  intros Hr Hn. unfold pmt.
  assert (E : Qeq_bool rate 0 = false) by (apply Qeq_bool_false_iff; lra).
  rewrite E, py_pow_ok by lra. rewrite bind_ok.
  apply py_div_ok. pose proof (discount_factor_range rate nper Hr Hn). lra.
Qed.

Lemma invert_pmt_zero_rate (payment rate : Q) (nper : Z) :
  rate == 0 -> invert_pmt payment rate nper = Ok (payment * inject_Z nper).
Proof.
  intros Hr. unfold invert_pmt.
  apply Qeq_bool_iff in Hr. rewrite Hr. reflexivity.
Qed.

Lemma invert_pmt_positive_rate (payment rate : Q) (nper : Z) :
  0 < rate ->
  invert_pmt payment rate nper
  = Ok (payment * (1 - (1 + rate) ^ (- nper)) / rate).
Proof.
  intros Hr. unfold invert_pmt.
  assert (E : Qeq_bool rate 0 = false) by (apply Qeq_bool_false_iff; lra).
  rewrite E, py_pow_ok by lra. rewrite bind_ok.
  apply py_div_ok. lra.
Qed.

(** The level payment of a positive loan is positive. *)
Lemma pmt_positive (rate : Q) (nper : Z) (pv : Q) :
  0 <= rate -> (0 < nper)%Z -> 0 < pv ->
  exists m, pmt rate nper pv = Ok m /\ 0 < m.
Proof.
  intros Hr Hn Hpv.
  destruct (Qlt_le_dec 0 rate) as [Hpos | Hle].
  - eexists. split; [apply pmt_positive_rate; assumption |].
    pose proof (discount_factor_range rate nper Hpos Hn) as [_ Hd].
    apply Qlt_shift_div_l; [lra |].
    rewrite Qmult_0_l. apply Qmult_lt_0_compat; assumption.
  - eexists. split; [apply pmt_zero_rate; [lra | assumption] |].
    apply Qlt_shift_div_l; [now apply inject_Z_pos | lra].
Qed.

(** The round trip of the two formulas over the rationals: for a rate
    >= 0, at least one period and a positive principal, [invert_pmt] gives
    the principal back; at rate 0 the two functions are [pv / nper] and
    [payment * nper].  (The doubles of the script follow it up to rounding
    while [1 + rate] is not rounded to 1; see [pmt_tiny_rate_raises].) *)
Lemma invert_pmt_pmt (rate : Q) (nper : Z) (pv : Q) :
  0 <= rate -> (1 <= nper)%Z -> 0 < pv ->
  exists payment principal,
    pmt rate nper pv = Ok payment
    /\ invert_pmt payment rate nper = Ok principal
    /\ principal == pv
    /\ (rate == 0 ->
        payment = pv / inject_Z nper /\ principal = payment * inject_Z nper).
Proof.
  intros Hr Hn Hpv.
  assert (Hn' : (0 < nper)%Z) by lia.
  destruct (Qlt_le_dec 0 rate) as [Hpos | Hle].
  - pose proof (discount_factor_range rate nper Hpos Hn') as [_ Hd].
    eexists. eexists.
    split; [apply pmt_positive_rate; assumption |].
    split; [apply invert_pmt_positive_rate; assumption |].
    split; [field; split; lra | intros H0; lra].
  - assert (H0 : rate == 0) by lra.
    pose proof (inject_Z_pos nper Hn') as Hi.
    eexists. eexists.
    split; [apply pmt_zero_rate; assumption |].
    split; [apply invert_pmt_zero_rate; assumption |].
    split; [field; lra | intros _; split; reflexivity].
Qed.

(** C2.  The code departs from the claim at rates so small that
    [1 + rate] is rounded to [1.0].  At the rate 1e-17 (>= 0), with 12
    periods and a principal of 1200, the formulas over the rationals give
    the principal back, as the claim has it; in the doubles of the script
    [1 - (1 + rate) ** -12] is zero and [pmt] raises [ZeroDivisionError], so
    there is no payment to invert. *)
Theorem pmt_tiny_rate_raises :
  returns (pmt (1 # 100000000000000000) 12 1200)
    (fun payment =>
       returns (invert_pmt payment (1 # 100000000000000000) 12)
         (fun principal => principal == 1200))
  /\ PrimFloat.leb 0 Float64.tiny_rate = true
  /\ PrimFloat.eqb (1 + Float64.tiny_rate) 1 = true
  /\ Float64.pmt Float64.tiny_rate 12 1200 = Err ZeroDivisionError.
Proof.
  split; [vm_compute; reflexivity |].
  repeat split; vm_compute; reflexivity.
Qed.

(** The other direction: the payment of the principal that a payment
    retires is that payment. *)
Lemma pmt_invert_pmt (payment rate : Q) (nper : Z) :
  0 <= rate -> (1 <= nper)%Z ->
  exists principal payment',
    invert_pmt payment rate nper = Ok principal
    /\ pmt rate nper principal = Ok payment'
    /\ payment' == payment.
Proof.
  intros Hr Hn.
  assert (Hn' : (0 < nper)%Z) by lia.
  destruct (Qlt_le_dec 0 rate) as [Hpos | Hle].
  - pose proof (discount_factor_range rate nper Hpos Hn') as [_ Hd].
    eexists. eexists.
    split; [apply invert_pmt_positive_rate; assumption |].
    split; [apply pmt_positive_rate; assumption |].
    field. split; lra.
  - assert (H0 : rate == 0) by lra.
    pose proof (inject_Z_pos nper Hn') as Hi.
    eexists. eexists.
    split; [apply invert_pmt_zero_rate; assumption |].
    split; [apply pmt_zero_rate; assumption |].
    field. lra.
Qed.

(** [clamp] is the usual clamp. *)
Lemma clamp_Qmax_Qmin (value min_val max_val : Q) :
  clamp value min_val max_val == Qmax min_val (Qmin value max_val).
Proof.
  unfold clamp. minmax_lra.
Qed.

(** The smoke test of the source: the payment on 320,000 at 6.5% over 30
    years is within a dollar of 2021.84. *)
Example pmt_smoke_test :
  returns (pmt (65 # 12000) 360 320000)
    (fun payment => py_abs (payment - 2021.84) < 1).
Proof.
  vm_compute. reflexivity.
Qed.


(** ** Amortization engine *)

Lemma remaining_balance_nonneg (r M : Q) (m : nat) :
  0 <= r -> 0 <= M -> 0 <= remaining_balance r M m.
Proof.
  intros Hr HM. induction m as [| m IH]; simpl.
  - lra.
  - apply Qle_shift_div_l; lra.
Qed.

(** One payment takes the balance to the next remaining balance. *)
Lemma remaining_balance_step (r M : Q) (m : nat) :
  0 <= r ->
  remaining_balance r M (S m) * (1 + r) - M == remaining_balance r M m.
Proof.
  intros Hr. simpl. field. lra.
Qed.

Lemma remaining_balance_zero_rate (r M : Q) (m : nat) :
  r == 0 -> remaining_balance r M m == M * inject_Z (Z.of_nat m).
Proof.
  intros Hr. induction m as [| m IH].
  - change (0 == M * 0). ring.
  - cbn [remaining_balance]. rewrite IH, Nat2Z.inj_succ.
    unfold Z.succ. rewrite inject_Z_plus, Hr.
    change (inject_Z 1) with 1. field.
Qed.

Lemma remaining_balance_closed_form (r M : Q) (m : nat) :
  0 < r ->
  remaining_balance r M m * r == M * (1 - (1 + r) ^ (- Z.of_nat m)).
Proof.
  intros Hr. induction m as [| m IH].
  - change (0 * r == M * (1 - 1)). ring.
  - cbn [remaining_balance].
    replace (- Z.of_nat (S m))%Z with (- Z.of_nat m + - 1)%Z by lia.
    rewrite Qpower_plus by lra.
    change ((1 + r) ^ (-1)) with (/ (1 + r)).
    set (d := (1 + r) ^ (- Z.of_nat m)) in *.
    transitivity ((remaining_balance r M m * r + M * r) / (1 + r)).
    + field. lra.
    + rewrite IH. field. lra.
Qed.

(** The loan is the remaining balance of the whole term at the level
    payment. *)
Lemma remaining_balance_of_pmt (r : Q) (n : Z) (loan M : Q) :
  0 <= r -> (0 < n)%Z -> pmt r n loan = Ok M ->
  remaining_balance r M (Z.to_nat n) == loan.
Proof.
  intros Hr Hn HM.
  destruct (Qlt_le_dec 0 r) as [Hpos | Hle].
  - rewrite pmt_positive_rate in HM by assumption.
    injection HM as <-.
    pose proof (discount_factor_range r n Hpos Hn) as [_ Hd].
    pose proof (remaining_balance_closed_form r
                  (r * loan / (1 - (1 + r) ^ (- n))) (Z.to_nat n) Hpos) as E.
    rewrite Z2Nat.id in E by lia.
    set (V := remaining_balance r _ _) in *.
    assert (E' : V * r == r * loan) by (rewrite E; field; lra).
    apply (Qmult_inj_r _ _ r); [lra | rewrite E'; ring].
  - assert (H0 : r == 0) by lra.
    rewrite pmt_zero_rate in HM by assumption.
    injection HM as <-.
    rewrite remaining_balance_zero_rate by assumption.
    rewrite Z2Nat.id by lia.
    pose proof (inject_Z_pos n Hn). field. lra.
Qed.

Lemma py_max_0_nonneg (x : Q) : 0 <= x -> py_max 0 x == x.
Proof.
  intros Hx. destruct (py_max_cases 0 x) as [[_ E] | [H E]]; rewrite E; lra.
Qed.

Lemma py_max_0_ge (x : Q) : 0 <= py_max 0 x.
Proof.
  destruct (py_max_cases 0 x) as [[H E] | [H E]]; rewrite E; lra.
Qed.

(** While the balance is the remaining balance of the months left, every
    row keeps the invariant. *)
Lemma amortization_loop_rows (r M : Q) (fuel : nat) :
  0 <= r -> 0 <= M ->
  forall (month : Z) (balance cum : Q),
    balance == remaining_balance r M fuel ->
    Forall (row_invariant r) (amortization_loop fuel month r M balance cum).
Proof.
  intros Hr HM. induction fuel as [| fuel IH]; intros month balance cum Hb.
  - constructor.
  - cbn [amortization_loop].
    pose proof (remaining_balance_step r M fuel Hr) as Hstep.
    pose proof (remaining_balance_nonneg r M fuel Hr HM) as Hnn.
    assert (Hnext : balance - (M - balance * r) == remaining_balance r M fuel)
      by (rewrite Hb, <- Hstep; ring).
    assert (Hclamp : py_max 0 (balance - (M - balance * r))
                     == remaining_balance r M fuel)
      by (rewrite py_max_0_nonneg; lra).
    constructor.
    + unfold row_invariant. cbn.
      set (b' := py_max 0 (balance - (M - balance * r))) in *.
      split.
      * destruct (Q.max_spec 0 (b' + (M - balance * r) - (M - balance * r)))
          as [[H E] | [H E]]; rewrite E; lra.
      * rewrite Hclamp, <- Hnext. ring.
    + destruct (Qle_bool _ 0); [constructor | apply IH; exact Hclamp].
Qed.

(** Whatever the payment, the balance handed to the next month is never
    negative, so the accumulated interest only grows. *)
Lemma amortization_loop_cumulative (r M : Q) (fuel : nat) :
  0 <= r ->
  forall (month : Z) (balance cum : Q),
    0 <= balance ->
    Forall (fun row => cum <= Cumulative_Interest row)
           (amortization_loop fuel month r M balance cum)
    /\ cumulative_nondecreasing (amortization_loop fuel month r M balance cum).
Proof.
  intros Hr. induction fuel as [| fuel IH]; intros month balance cum Hb.
  - split; [constructor |]. intros i j a b _ Hi. discriminate Hi.
  - cbn [amortization_loop].
    assert (Hint : 0 <= balance * r) by (apply Qmult_le_0_compat; assumption).
    set (b' := py_max 0 (balance - (M - balance * r))).
    set (row := Build_amort_row _ _ _ _ _ _).
    assert (Htail : Forall (fun x => cum + balance * r <= Cumulative_Interest x)
                      (if Qle_bool b' 0 then []
                       else amortization_loop fuel (month + 1) r M b'
                              (cum + balance * r))
                    /\ cumulative_nondecreasing
                         (if Qle_bool b' 0 then []
                          else amortization_loop fuel (month + 1) r M b'
                                 (cum + balance * r))).
    { destruct (Qle_bool b' 0).
      - split; [constructor |]. intros i j a b _ Hi. discriminate Hi.
      - apply IH. apply py_max_0_ge. }
    destruct Htail as [Hall Hsorted]. split.
    + constructor; [cbn; lra |].
      eapply Forall_impl; [exact Hall |]. cbn. intros x Hx. lra.
    + intros i j a b Hij Hi Hj.
      destruct i as [| i]; cbn in Hi.
      * injection Hi as <-. destruct j as [| j]; cbn in Hj.
        -- injection Hj as <-. apply Qle_refl.
        -- rewrite Forall_forall in Hall.
           apply Hall. eapply list_elem_of_lookup_2. exact Hj.
      * destruct j as [| j]; [lia |]. cbn in Hj.
        apply (Hsorted i j a b); [lia | assumption | assumption].
Qed.

Lemma py_int_nonneg (x : Q) : 0 <= x -> (0 <= py_int x)%Z.
Proof.
  intros Hx. unfold py_int. apply Z.quot_pos; [| lia].
  unfold Qle in Hx. simpl in Hx. lia.
Qed.

Lemma pmt_no_periods (rate pv : Q) : pmt rate 0 pv = Err ZeroDivisionError.
Proof.
  unfold pmt. destruct (Qeq_bool rate 0) eqn:E.
  - apply py_div_zero. reflexivity.
  - change (- 0)%Z with 0%Z. unfold py_pow.
    change (0 <? 0)%Z with false. rewrite andb_false_r, bind_ok.
    apply py_div_zero. reflexivity.
Qed.

(** C3.  For a positive loan, a rate >= 0 and a positive term, the engine
    either returns rows that all satisfy
    [ending_balance = max(0, beginning_balance - principal)] and
    [interest = beginning_balance * monthly_rate], with a non-decreasing
    cumulative interest, or the term is shorter than a month and the level
    payment raises the division fault (no row is emitted).  From a term of
    one month on, rows are returned. *)
Theorem amortization_rows_invariant (loan_amount annual_rate years : Q) :
  0 < loan_amount -> 0 <= annual_rate -> 0 < years ->
  match make_amortization_schedule loan_amount annual_rate years with
  | Ok rows =>
      (1 <= py_int (years * 12))%Z
      /\ Forall (row_invariant (annual_rate / 100 / 12)) rows
      /\ cumulative_nondecreasing rows
  | Err e => e = ZeroDivisionError /\ py_int (years * 12) = 0%Z
  end.
Proof.
  intros Hloan Hrate Hyears. unfold make_amortization_schedule.
  assert (Hr : 0 <= annual_rate / 100 / 12) by (const_div; lra).
  set (r := annual_rate / 100 / 12) in *. clearbody r.
  assert (Hn : (0 <= py_int (years * 12))%Z) by (apply py_int_nonneg; lra).
  set (n := py_int (years * 12)) in *. clearbody n.
  destruct (Z.eq_dec n 0%Z) as [-> | Hn0].
  - rewrite pmt_no_periods. cbn. split; reflexivity.
  - assert (Hpos : (0 < n)%Z) by lia.
    destruct (pmt_positive r n loan_amount Hr Hpos Hloan) as [M [HM HMpos]].
    rewrite HM, bind_ok.
    split; [lia |]. split.
    + apply amortization_loop_rows; [assumption | lra |].
      symmetry. apply remaining_balance_of_pmt; assumption.
    + apply amortization_loop_cumulative; [assumption | lra].
Qed.

Lemma amortization_rows_invariant_witness :
  0 < 1000 /\ 0 <= 12 /\ 0 < (1 # 4)
  /\ match make_amortization_schedule 1000 12 (1 # 4) with
     | Ok rows =>
         (1 <= py_int ((1 # 4) * 12))%Z
         /\ Forall (row_invariant (12 / 100 / 12)) rows
         /\ cumulative_nondecreasing rows
     | Err e => e = ZeroDivisionError /\ py_int ((1 # 4) * 12) = 0%Z
     end.
Proof.
  assert (H1 : 0 < 1000) by lra.
  assert (H2 : 0 <= 12) by lra.
  assert (H3 : 0 < (1 # 4)) by lra.
  split; [exact H1 |]. split; [exact H2 |]. split; [exact H3 |].
  apply (amortization_rows_invariant 1000 12 (1 # 4) H1 H2 H3).
Defined.

(** A quarter of a year at 12%: three rows, the last one clears the loan. *)
Example three_month_schedule :
  returns (make_amortization_schedule 1000 12 (1 # 4))
    (fun rows =>
       length rows = 3%nat
       /\ (Month <$> rows) = [1; 2; 3]%Z
       /\ match last rows with
          | Some row => Ending_Balance row == 0
          | None => False
          end).
Proof.
  vm_compute. repeat split.
Qed.

(** ** Priced mode *)

(** What a successful priced calculation tells about its inputs. *)
Lemma priced_mode_ok_inv (i : inputs) (price : Q) (c : calculation) :
  priced_mode i price = Ok c ->
  down_payment_amount i < price
  /\ c_home_price c = price
  /\ c_loan_amount c = price - down_payment_amount i
  /\ c_monthly_pmi c
     = (if Qlt_bool (down_payment_percent i) 20
        then (price - down_payment_amount i) * pmi_rate i / 100 / 12 else 0)
  /\ ~ annual_income i / 12 == 0.
Proof.
  unfold priced_mode. cbv zeta.
  destruct (Qle_bool price (down_payment_amount i)) eqn:Hdp;
    [intros H; discriminate H |].
  apply Qle_bool_false_iff in Hdp.
  destruct (pmt _ _ _) as [pi | e];
    [rewrite bind_ok | rewrite bind_err; intros H; discriminate H].
  destruct (Qeq_dec (annual_income i / 12) 0) as [Hinc | Hinc];
    [rewrite !(py_div_zero _ _ Hinc), bind_err; intros H; discriminate H |].
  rewrite !(py_div_ok _ _ Hinc), !bind_ok.
  destruct (py_div _ price) as [l | e];
    [rewrite bind_ok | rewrite bind_err; intros H; discriminate H].
  intros H. injection H as <-. cbn. tauto.
Qed.

Lemma priced_mode_invalid (i : inputs) (price : Q) :
  price <= down_payment_amount i -> priced_mode i price = Err InvalidInput.
Proof.
  intros H. unfold priced_mode.
  apply Qle_bool_iff in H. rewrite H. reflexivity.
Qed.

Lemma core_calculation_priced (i : inputs) (price : Q) :
  price_mode i = SetHomePrice -> home_price i = Some price -> ~ price == 0 ->
  core_calculation i = priced_mode i price.
Proof.
  intros Hm Hp H0. unfold core_calculation, truthy_price.
  rewrite Hm, Hp.
  apply Qeq_bool_false_iff in H0. rewrite H0. reflexivity.
Qed.

(** C7.  In priced mode (the mode is "Set Home Price" and the price is a
    non-zero number, which is when the script takes that branch), a down
    payment >= the home price makes the calculation fail with
    [InvalidInput]; the run reports that error and no result; and a result,
    when there is one, has a positive loan amount. *)
Theorem priced_mode_down_payment_validation (i : inputs) (price : Q) :
  price_mode i = SetHomePrice -> home_price i = Some price -> ~ price == 0 ->
  (price <= down_payment_amount i ->
     core_calculation i = Err InvalidInput
     /\ forall scenarios now b,
          snd (script_run scenarios now b i) = Err InvalidInput)
  /\ (forall c, core_calculation i = Ok c -> 0 < c_loan_amount c).
Proof.
  intros Hm Hp H0.
  rewrite (core_calculation_priced i price Hm Hp H0). split.
  - intros Hdp.
    pose proof (priced_mode_invalid i price Hdp) as E.
    split; [exact E |].
    intros scenarios now b. unfold script_run.
    rewrite (core_calculation_priced i price Hm Hp H0), E. reflexivity.
  - intros c Hc.
    destruct (priced_mode_ok_inv i price c Hc) as (Hdp & _ & -> & _).
    lra.
Qed.

Lemma priced_mode_down_payment_validation_witness :
  (price_mode fully_paid_inputs = SetHomePrice
   /\ home_price fully_paid_inputs = Some 400000
   /\ ~ 400000 == 0
   /\ 400000 <= down_payment_amount fully_paid_inputs)
  /\ core_calculation fully_paid_inputs = Err InvalidInput.
Proof.
  assert (H1 : price_mode fully_paid_inputs = SetHomePrice) by reflexivity.
  assert (H2 : home_price fully_paid_inputs = Some 400000) by reflexivity.
  assert (H3 : ~ 400000 == 0) by (intros H; discriminate H).
  assert (H4 : 400000 <= down_payment_amount fully_paid_inputs)
    by (cbn; lra).
  split; [tauto |].
  apply (proj1 (priced_mode_down_payment_validation
                  fully_paid_inputs 400000 H1 H2 H3) H4).
Defined.

(** C10.  In a successful priced calculation the monthly PMI is positive
    exactly when the down-payment-percent input is below 20 and the PMI
    rate is positive.  The ratio of the down-payment amount to the price
    plays no part: PMI is charged on a 20% down payment when the percent
    input says 10, and omitted on a 5% down payment when it says 20. *)
Theorem priced_mode_pmi_gate :
  (forall (i : inputs) (price : Q) (c : calculation),
      priced_mode i price = Ok c ->
      (0 < c_monthly_pmi c <-> down_payment_percent i < 20 /\ 0 < pmi_rate i))
  /\ returns (priced_mode pmi_charged_inputs 400000)
       (fun c => 0.2 <= down_payment_amount pmi_charged_inputs / 400000
                 /\ 0 < c_monthly_pmi c)
  /\ returns (priced_mode pmi_omitted_inputs 400000)
       (fun c => down_payment_amount pmi_omitted_inputs / 400000 < 0.2
                 /\ c_monthly_pmi c == 0).
Proof.
  split; [| split].
  - intros i price c Hc.
    destruct (priced_mode_ok_inv i price c Hc) as (Hdp & _ & _ & -> & _).
    destruct (Qlt_bool (down_payment_percent i) 20) eqn:Hpct.
    + apply Qlt_bool_iff in Hpct.
      assert (Hloan : 0 < price - down_payment_amount i) by lra.
      set (loan := price - down_payment_amount i) in *.
      const_div. split.
      * intros H. split; [assumption |].
        destruct (Qlt_le_dec 0 (pmi_rate i)) as [? | Hle]; [assumption |].
        assert (loan * pmi_rate i <= 0) by nra. lra.
      * intros [_ H].
        assert (0 < loan * pmi_rate i) by (apply Qmult_lt_0_compat; assumption).
        lra.
    + apply Qlt_bool_false_iff in Hpct. split; [intros H | intros [H _]]; lra.
  - vm_compute. split; [discriminate | reflexivity].
  - vm_compute. split; reflexivity.
Qed.

Lemma priced_mode_pmi_gate_witness :
  returns (priced_mode pmi_charged_inputs 400000)
    (fun c => 0 < c_monthly_pmi c
              <-> down_payment_percent pmi_charged_inputs < 20
                  /\ 0 < pmi_rate pmi_charged_inputs).
Proof.
  destruct (priced_mode pmi_charged_inputs 400000) as [c | e] eqn:E.
  - apply (proj1 priced_mode_pmi_gate pmi_charged_inputs 400000 c E).
  - vm_compute in E. discriminate E.
Defined.

(** ** The calculation on inputs the sidebar admits *)

Section ValidInputs.

Variable i : inputs.
Hypothesis Hvalid : valid_inputs i.

Lemma valid_monthly_rate : 0 < interest_rate i / 100 / 12.
Proof. destruct Hvalid. const_div. lra. Qed.

Lemma valid_total_months : (0 < loan_term i * 12)%Z.
Proof. destruct Hvalid. unfold loan_term_option in *. lia. Qed.

Lemma valid_monthly_income : ~ annual_income i / 12 == 0.
Proof. destruct Hvalid. const_div. lra. Qed.

(** The other monthly costs are never negative at a price above the down
    payment. *)
Lemma valid_other_costs (price : Q) (gate : bool) :
  down_payment_amount i < price ->
  0 <= price * property_tax_rate i / 100 / 12 + home_insurance i / 12
       + hoa_fees i
       + (if gate then (price - down_payment_amount i) * pmi_rate i / 100 / 12
          else 0).
Proof.
  intros Hp. destruct Hvalid.
  assert (0 <= price * property_tax_rate i)
    by (apply Qmult_le_0_compat; lra).
  assert (0 <= (price - down_payment_amount i) * pmi_rate i)
    by (apply Qmult_le_0_compat; lra).
  destruct gate; const_div; lra.
Qed.

Lemma estimate_total_ok (price : Q) :
  down_payment_amount i < price ->
  exists t, estimate_total i price = Ok t /\ 0 < t.
Proof.
  intros Hp. unfold estimate_total. cbv zeta.
  destruct (pmt_positive (interest_rate i / 100 / 12) (loan_term i * 12)
              (price - down_payment_amount i)) as [m [Hm Hmpos]];
    [pose proof valid_monthly_rate; lra | apply valid_total_months | lra |].
  rewrite Hm, bind_ok.
  rewrite py_div_ok by (destruct Hvalid; lra).
  rewrite bind_ok. eexists. split; [reflexivity |].
  pose proof (valid_other_costs price
                (Qlt_bool (down_payment_amount i / price) 0.20) Hp).
  lra.
Qed.

(** The loop returns, after at most [fuel] further passes; when it was
    left by [break], the price it leaves has a positive loan and an
    estimated payment within the tolerance of the target. *)
Lemma price_loop_ok (fuel : nat) :
  forall (done : nat) (price : Q),
  exists ex,
    price_loop i fuel done price = Ok ex
    /\ (exit_iterations ex <= done + fuel)%nat
    /\ (exit_break ex = true ->
        down_payment_amount i < exit_price ex
        /\ exists t, estimate_total i (exit_price ex) = Ok t
                     /\ py_abs (t - max_payment_constraint i) < 10).
Proof.
  induction fuel as [| fuel IH]; intros done price.
  - eexists. split; [reflexivity |]. cbn. split; [lia | discriminate].
  - cbn [price_loop]. cbv zeta.
    destruct (Qle_bool (price - down_payment_amount i) 0) eqn:Hloan.
    + destruct (IH (S done) (down_payment_amount i * 2)) as (ex & E & Hn & Hb).
      exists ex. split; [exact E |]. split; [lia | exact Hb].
    + apply Qle_bool_false_iff in Hloan.
      destruct (estimate_total_ok price) as [t [Ht Htpos]]; [lra |].
      rewrite Ht, bind_ok.
      destruct (Qlt_bool (py_abs (t - max_payment_constraint i)) 10) eqn:Htol.
      * eexists. split; [reflexivity |]. cbn. split; [lia |].
        intros _. split; [lra |].
        exists t. split; [exact Ht | now apply Qlt_bool_iff].
      * rewrite py_div_ok by lra. rewrite bind_ok.
        destruct (IH (S done) (price * (max_payment_constraint i / t)))
          as (ex & E & Hn & Hb).
        exists ex. split; [exact E |]. split; [lia | exact Hb].
Qed.

Lemma py_max_floor (price : Q) :
  down_payment_amount i < py_max price (down_payment_amount i + 1000).
Proof.
  destruct (py_max_cases price (down_payment_amount i + 1000))
    as [[H E] | [H E]]; rewrite E; lra.
Qed.

Lemma py_max_left (a b : Q) : b <= a -> py_max a b = a.
Proof.
  intros H. unfold py_max.
  apply Qlt_bool_false_iff in H. rewrite H. reflexivity.
Qed.

(** The values set after the loop: no fault, and the payment is the one
    [estimate_total] computes at the floored price. *)
Lemma finish_max_affordability_ok (estimated_price : Q) :
  exists c t,
    finish_max_affordability i estimated_price = Ok c
    /\ estimate_total i
         (py_max estimated_price (down_payment_amount i + 1000)) = Ok t
    /\ c_total_monthly_payment c = t
    /\ c_home_price c = py_max estimated_price (down_payment_amount i + 1000)
    /\ c_loan_amount c = c_home_price c - down_payment_amount i.
Proof.
  unfold finish_max_affordability, estimate_total. cbv zeta.
  pose proof (py_max_floor estimated_price) as Hfloor.
  set (price := py_max estimated_price (down_payment_amount i + 1000)) in *.
  destruct (pmt_positive (interest_rate i / 100 / 12) (loan_term i * 12)
              (price - down_payment_amount i)) as [m [Hm Hmpos]];
    [pose proof valid_monthly_rate; lra | apply valid_total_months | lra |].
  rewrite Hm, !bind_ok.
  assert (Hprice : ~ price == 0) by (destruct Hvalid; lra).
  rewrite !(py_div_ok _ price) by exact Hprice.
  rewrite !bind_ok.
  rewrite !(py_div_ok _ (annual_income i / 12)) by apply valid_monthly_income.
  rewrite !bind_ok.
  eexists. eexists. split; [reflexivity |]. cbn. tauto.
Qed.

Lemma max_affordability_mode_ok :
  exists ex c,
    max_affordability_mode i = Ok (ex, c)
    /\ (exit_iterations ex <= 10)%nat
    /\ (exit_break ex = true ->
        down_payment_amount i + 1000 <= exit_price ex ->
        py_abs (c_total_monthly_payment c - max_payment_constraint i) < 10)
    /\ 0 < c_loan_amount c.
Proof.
  unfold max_affordability_mode.
  destruct (price_loop_ok 10 0 seed_price) as (ex & E & Hn & Hb).
  destruct (finish_max_affordability_ok (exit_price ex))
    as (c & t & Ec & Et & Htot & Hprice & Hloan).
  rewrite E, bind_ok, Ec, bind_ok.
  exists ex, c. split; [reflexivity |]. split; [lia |]. split.
  - intros Hbreak Hfloor.
    destruct (Hb Hbreak) as (_ & t' & Et' & Htol).
    rewrite (py_max_left _ _ Hfloor) in Et.
    rewrite Et in Et'. injection Et' as <-.
    rewrite Htot. exact Htol.
  - rewrite Hloan, Hprice.
    pose proof (py_max_floor (exit_price ex)). lra.
Qed.

Lemma priced_mode_ok (price : Q) :
  down_payment_amount i < price ->
  exists c, priced_mode i price = Ok c.
Proof.
  intros Hp. unfold priced_mode. cbv zeta.
  assert (E : Qle_bool price (down_payment_amount i) = false)
    by now apply Qle_bool_false_iff.
  rewrite E.
  destruct (pmt_positive (interest_rate i / 100 / 12) (loan_term i * 12)
              (price - down_payment_amount i)) as [m [Hm Hmpos]];
    [pose proof valid_monthly_rate; lra | apply valid_total_months | lra |].
  rewrite Hm, !bind_ok.
  rewrite !(py_div_ok _ (annual_income i / 12)) by apply valid_monthly_income.
  rewrite !bind_ok.
  rewrite py_div_ok by (destruct Hvalid; lra).
  rewrite bind_ok. eexists. reflexivity.
Qed.


End ValidInputs.

(** ** Max-affordability mode *)

Lemma converging_inputs_valid : valid_inputs converging_inputs.
Proof.
  constructor; cbn; try (split; lra); try lra; try exact I.
  - split; [discriminate | intros H; now contradiction H].
  - unfold loan_term_option. lia.
Qed.

(** C1 as stated fails: with a 12,000 income and a 200,000 down payment
    (less than the seed price, at a positive rate) the price alternates
    between the seed and a value under the down payment; the ten passes end
    without [break], and the price returned costs more per month than the
    target plus the tolerance. *)
Lemma oscillating_payment_exceeds_target :
  down_payment_amount oscillating_inputs < seed_price
  /\ 0 < interest_rate oscillating_inputs
  /\ returns (max_affordability_mode oscillating_inputs)
       (fun r =>
          exit_iterations (fst r) = 10%nat
          /\ exit_break (fst r) = false
          /\ c_home_price (snd r) == 400000
          /\ max_payment_constraint oscillating_inputs == 280
          /\ max_payment_constraint oscillating_inputs + 10
             < c_total_monthly_payment (snd r)).
Proof.
  vm_compute. repeat split; reflexivity.
Qed.

(** C1, amended.  On inputs the sidebar admits (the rate is then positive)
    the solver returns after at most 10 passes of its loop; when the loop
    was left by the tolerance test at a price of at least the down payment
    plus 1000, the total monthly payment of the returned price is within 10
    of the target, hence at most the target plus 10. *)
Theorem max_affordability_bounded (i : inputs) :
  valid_inputs i ->
  exists ex c,
    max_affordability_mode i = Ok (ex, c)
    /\ (exit_iterations ex <= 10)%nat
    /\ (exit_break ex = true ->
        down_payment_amount i + 1000 <= exit_price ex ->
        py_abs (c_total_monthly_payment c - max_payment_constraint i) < 10
        /\ c_total_monthly_payment c <= max_payment_constraint i + 10).
Proof.
  intros Hvalid.
  destruct (max_affordability_mode_ok i Hvalid) as (ex & c & E & Hn & Hb & _).
  exists ex, c. split; [exact E |]. split; [exact Hn |].
  intros Hbreak Hfloor. pose proof (Hb Hbreak Hfloor) as Htol.
  split; [exact Htol |].
  unfold py_abs in Htol. apply Qabs_Qlt_condition in Htol. lra.
Qed.

Lemma max_affordability_bounded_witness :
  valid_inputs converging_inputs
  /\ exists ex c,
       max_affordability_mode converging_inputs = Ok (ex, c)
       /\ (exit_iterations ex <= 10)%nat
       /\ (exit_break ex = true ->
           down_payment_amount converging_inputs + 1000 <= exit_price ex ->
           py_abs (c_total_monthly_payment c
                   - max_payment_constraint converging_inputs) < 10
           /\ c_total_monthly_payment c
              <= max_payment_constraint converging_inputs + 10).
Proof.
  split; [exact converging_inputs_valid |].
  apply (max_affordability_bounded converging_inputs converging_inputs_valid).
Defined.

(** On [converging_inputs] the loop is indeed left by [break], in its first
    pass, at the seed price. *)
Example converging_inputs_break :
  returns (max_affordability_mode converging_inputs)
    (fun r =>
       exit_break (fst r) = true
       /\ exit_iterations (fst r) = 1%nat
       /\ down_payment_amount converging_inputs + 1000 <= exit_price (fst r)).
Proof.
  vm_compute. repeat split. discriminate.
Qed.

(** ** Scenario history *)

Lemma save_scenario_length (scenarios : list scenario) (now : string)
    (i : inputs) :
  (length scenarios <= 2)%nat ->
  (length (save_scenario scenarios now i) <= 2)%nat.
Proof.
  intros H. unfold save_scenario, pop_front. cbv zeta.
  destruct (2 <? _)%nat eqn:E.
  - rewrite length_drop, length_app. cbn. lia.
  - apply Nat.ltb_ge in E. exact E.
Qed.

Lemma update_last_scenario_length (scenarios : list scenario) (c : calculation) :
  length (update_last_scenario scenarios c) = length scenarios.
Proof. apply length_alter. Qed.

Lemma update_last_scenario_inputs (scenarios : list scenario) (c : calculation) :
  snapshot_inputs <$> update_last_scenario scenarios c
  = snapshot_inputs <$> scenarios.
Proof.
  unfold update_last_scenario. apply list_eq. intros k.
  rewrite !list_lookup_fmap, list_lookup_alter.
  destruct (decide (pred (length scenarios) = k)) as [<- | _]; [| reflexivity].
  destruct (scenarios !! pred (length scenarios)); reflexivity.
Qed.

Lemma update_last_scenario_earlier (scenarios : list scenario) (c : calculation)
    (k : nat) :
  (S k < length scenarios)%nat ->
  update_last_scenario scenarios c !! k = scenarios !! k.
Proof.
  intros H. unfold update_last_scenario.
  apply list_lookup_alter_ne. lia.
Qed.

Lemma script_run_scenarios (scenarios : list scenario) (now : string)
    (b : button) (i : inputs) :
  let saved := match b with
               | SaveScenario => save_scenario scenarios now i
               | NoButton | ResetInputs => scenarios
               end in
  fst (script_run scenarios now b i)
  = match core_calculation i with
    | Ok c => update_last_scenario saved c
    | Err _ => saved
    end.
Proof.
  unfold script_run. destruct (core_calculation i); reflexivity.
Qed.

Lemma script_run_length (scenarios : list scenario) (now : string)
    (b : button) (i : inputs) :
  (length scenarios <= 2)%nat ->
  (length (fst (script_run scenarios now b i)) <= 2)%nat.
Proof.
  intros H. rewrite script_run_scenarios. cbv zeta.
  assert (Hsaved : (length (match b with
                            | SaveScenario => save_scenario scenarios now i
                            | NoButton | ResetInputs => scenarios
                            end) <= 2)%nat)
    by (destruct b; [exact H | now apply save_scenario_length | exact H]).
  destruct (core_calculation i);
    [rewrite update_last_scenario_length |]; exact Hsaved.
Qed.

(** C9.  The code departs from the claim: a scenario is saved with one set
    of inputs, the inputs change, and a run without any button leaves the
    saved entry with the inputs it was saved with and the payment of the
    new inputs (the update after the calculation has no guard). *)
Theorem recomputation_rewrites_saved_scenario :
  let saved := fst (script_run [] "10:00:00" SaveScenario pmi_charged_inputs) in
  let later := fst (script_run saved "10:00:05" NoButton pmi_omitted_inputs) in
  match saved, later with
  | [s1], [s2] =>
      snapshot_inputs s1 = snapshot_inputs s2
      /\ match s_monthly_payment s1, s_monthly_payment s2 with
         | Some p1, Some p2 => p1 < p2
         | _, _ => False
         end
  | _, _ => False
  end.
Proof.
  vm_compute. split; reflexivity.
Qed.

(** * Further properties of the code *)

(** ** Formula library *)

(** X1.  With bounds in order, [clamp] lands between them, leaves a value
    already between them as it is, and clamping twice changes nothing; with
    the bounds the wrong way round it returns the lower bound argument. *)
Theorem clamp_bounds (value min_val max_val : Q) :
  (min_val <= max_val ->
     min_val <= clamp value min_val max_val <= max_val
     /\ (min_val <= value <= max_val -> clamp value min_val max_val == value)
     /\ clamp (clamp value min_val max_val) min_val max_val
        == clamp value min_val max_val)
  /\ (max_val < min_val -> clamp value min_val max_val == min_val).
Proof.
  unfold clamp. split.
  - intros H. split; [| split; [intros Hv |]]; minmax_lra.
  - intros H. minmax_lra.
Qed.

Lemma clamp_bounds_witness :
  (0 <= 100 /\ 0 <= clamp 250 0 100 <= 100)
  /\ (100 < 200 /\ clamp 150 200 100 == 200).
Proof.
  assert (H1 : 0 <= 100) by lra.
  assert (H2 : 100 < 200) by lra.
  split; (split; [assumption |]).
  - exact (proj1 (proj1 (clamp_bounds 250 0 100) H1)).
  - exact (proj2 (clamp_bounds 150 200 100) H2).
Defined.

Lemma remaining_balance_le_payments (r M : Q) (m : nat) :
  0 <= r -> 0 <= M ->
  remaining_balance r M m <= M * inject_Z (Z.of_nat m).
Proof.
  intros Hr HM. induction m as [| m IH].
  - change (0 <= M * 0). lra.
  - cbn [remaining_balance]. rewrite Nat2Z.inj_succ. unfold Z.succ.
    rewrite inject_Z_plus. change (inject_Z 1) with 1.
    assert (Hm : 0 <= inject_Z (Z.of_nat m))
      by (change 0 with (inject_Z 0); rewrite <- Zle_Qle; lia).
    apply Qle_shift_div_r; [lra |].
    assert (0 <= M * (inject_Z (Z.of_nat m) + 1) * r)
      by (apply Qmult_le_0_compat; [apply Qmult_le_0_compat |]; lra).
    lra.
Qed.

Lemma remaining_balance_lt_payments (r M : Q) (m : nat) :
  0 < r -> 0 < M ->
  remaining_balance r M (S m) < M * inject_Z (Z.of_nat (S m)).
Proof.
  intros Hr HM.
  pose proof (remaining_balance_le_payments r M m) as Hle.
  cbn [remaining_balance]. rewrite Nat2Z.inj_succ. unfold Z.succ.
  rewrite inject_Z_plus. change (inject_Z 1) with 1.
  assert (Hm : 0 <= inject_Z (Z.of_nat m))
    by (change 0 with (inject_Z 0); rewrite <- Zle_Qle; lia).
  apply Qlt_shift_div_r; [lra |].
  assert (0 < M * (inject_Z (Z.of_nat m) + 1) * r)
    by (apply Qmult_lt_0_compat; [apply Qmult_lt_0_compat |]; lra).
  specialize (Hle ltac:(lra) ltac:(lra)). lra.
Qed.

(** At a positive rate the payments of the whole term add up to more than
    the loan. *)
Lemma payments_exceed_loan (rate : Q) (nper : Z) (pv M : Q) :
  0 < rate -> (1 <= nper)%Z -> 0 < pv -> pmt rate nper pv = Ok M ->
  pv < M * inject_Z nper.
Proof.
  intros Hr Hn Hpv HM.
  assert (Hn' : (0 < nper)%Z) by lia.
  destruct (pmt_positive rate nper pv) as [M' [HM' HMpos]]; [lra | lia | lra |].
  rewrite HM in HM'. injection HM' as <-.
  pose proof (remaining_balance_of_pmt rate nper pv M) as HV.
  specialize (HV ltac:(lra) Hn' HM).
  destruct (Z.to_nat nper) as [| m] eqn:Em; [lia |].
  pose proof (remaining_balance_lt_payments rate M m Hr HMpos) as Hlt.
  replace (Z.of_nat (S m)) with nper in Hlt by lia. lra.
Qed.

(** The payment per unit of principal. *)
Lemma pmt_factor (rate : Q) (nper : Z) :
  0 <= rate -> (1 <= nper)%Z ->
  exists factor, 0 < factor
    /\ forall pv, exists payment,
         pmt rate nper pv = Ok payment /\ payment == factor * pv.
Proof.
  intros Hr Hn.
  assert (Hn' : (0 < nper)%Z) by lia.
  destruct (Qlt_le_dec 0 rate) as [Hpos | Hle].
  - pose proof (discount_factor_range rate nper Hpos Hn') as [Hd0 Hd1].
    exists (rate / (1 - (1 + rate) ^ (- nper))). split.
    + apply Qlt_shift_div_l; lra.
    + intros pv. eexists.
      split; [apply pmt_positive_rate; assumption |]. field. lra.
  - assert (H0 : rate == 0) by lra.
    pose proof (inject_Z_pos nper Hn') as Hi.
    exists (/ inject_Z nper). split.
    + apply Qinv_lt_0_compat. exact Hi.
    + intros pv. eexists.
      split; [apply pmt_zero_rate; assumption |]. field. lra.
Qed.

(** The loan a payment retires is the remaining balance of the whole
    term. *)
Lemma invert_pmt_remaining_balance (payment rate : Q) (nper : Z) :
  0 <= rate -> (0 <= nper)%Z ->
  exists loan,
    invert_pmt payment rate nper = Ok loan
    /\ loan == remaining_balance rate payment (Z.to_nat nper).
Proof.
  intros Hr Hn.
  destruct (Qlt_le_dec 0 rate) as [Hpos | Hle].
  - eexists. split; [apply invert_pmt_positive_rate; assumption |].
    pose proof (remaining_balance_closed_form rate payment (Z.to_nat nper) Hpos)
      as E.
    rewrite Z2Nat.id in E by assumption.
    apply (Qmult_inj_r _ _ rate); [lra |]. rewrite E. field. lra.
  - assert (H0 : rate == 0) by lra.
    eexists. split; [apply invert_pmt_zero_rate; assumption |].
    rewrite remaining_balance_zero_rate by assumption.
    rewrite Z2Nat.id by assumption. reflexivity.
Qed.

Lemma remaining_balance_rate_antitone (r1 r2 M : Q) (m : nat) :
  0 <= M -> 0 <= r1 -> r1 <= r2 ->
  remaining_balance r2 M m <= remaining_balance r1 M m.
Proof.
  intros HM Hr1 Hr. induction m as [| m IH].
  - apply Qle_refl.
  - cbn [remaining_balance].
    pose proof (remaining_balance_nonneg r2 M m ltac:(lra) HM) as H2.
    pose proof (remaining_balance_nonneg r1 M (S m) Hr1 HM) as Hc.
    pose proof (remaining_balance_step r1 M m Hr1) as Hs.
    cbn [remaining_balance] in Hc, Hs.
    set (c := (remaining_balance r1 M m + M) / (1 + r1)) in *.
    apply Qle_shift_div_r; [lra |].
    assert (0 <= c * (r2 - r1)) by (apply Qmult_le_0_compat; lra).
    lra.
Qed.

(** ** Amortization engine *)

Lemma remaining_balance_interest_lt (r M : Q) (m : nat) :
  0 <= r -> 0 < M -> remaining_balance r M m * r < M.
Proof.
  intros Hr HM. induction m as [| m IH].
  - change (0 * r < M). lra.
  - pose proof (remaining_balance_step r M m Hr) as Hs.
    pose proof (remaining_balance_nonneg r M (S m) Hr ltac:(lra)) as Hn.
    set (V' := remaining_balance r M (S m)) in *.
    set (V := remaining_balance r M m) in *.
    assert (E : V' * r == V + M - V') by lra.
    rewrite E.
    assert (0 <= V' * r) by (apply Qmult_le_0_compat; assumption).
    assert (Hmul : r * (V' * (1 + r)) == r * (V + M)) by (rewrite <- Hs; ring).
    assert (0 <= r * (M - V * r)) by (apply Qmult_le_0_compat; lra).
    destruct (Qlt_le_dec (V + M - V') M) as [? | Hge]; [assumption |].
    exfalso.
    assert (Hv : V' <= V) by lra.
    assert (Hrv : 0 <= r * (V - V')) by (apply Qmult_le_0_compat; lra).
    assert (V' * r <= V * r) by lra.
    lra.
Qed.

Lemma remaining_balance_pos (r M : Q) (m : nat) :
  0 <= r -> 0 < M -> 0 < remaining_balance r M (S m).
Proof.
  intros Hr HM. cbn [remaining_balance].
  pose proof (remaining_balance_nonneg r M m Hr ltac:(lra)).
  apply Qlt_shift_div_l; lra.
Qed.

(** The rows of the loop, one by one, while the balance is the remaining
    balance of the months left: the [break] comes with the last month. *)
Lemma amortization_loop_nth (r M : Q) (fuel : nat) :
  0 <= r -> 0 < M ->
  forall (month : Z) (balance cum : Q),
    balance == remaining_balance r M fuel ->
    length (amortization_loop fuel month r M balance cum) = fuel
    /\ forall (k : nat) (row : amort_row),
         amortization_loop fuel month r M balance cum !! k = Some row ->
         Month row = (month + Z.of_nat k)%Z
         /\ Beginning_Balance row == remaining_balance r M (fuel - k)
         /\ Ending_Balance row == remaining_balance r M (fuel - S k)
         /\ Interest row == remaining_balance r M (fuel - k) * r
         /\ Interest row + Principal row == M
         /\ Cumulative_Interest row
            == cum + M * inject_Z (Z.of_nat (S k))
               - (remaining_balance r M fuel
                  - remaining_balance r M (fuel - S k)).
Proof.
  intros Hr HM. induction fuel as [| fuel IH]; intros month balance cum Hb.
  - split; [reflexivity |]. intros k row Hk. discriminate Hk.
  - cbn [amortization_loop].
    pose proof (remaining_balance_step r M fuel Hr) as Hstep.
    pose proof (remaining_balance_nonneg r M fuel Hr ltac:(lra)) as Hnn.
    assert (Hnext : balance - (M - balance * r) == remaining_balance r M fuel)
      by (rewrite Hb, <- Hstep; ring).
    assert (Hclamp : py_max 0 (balance - (M - balance * r))
                     == remaining_balance r M fuel)
      by (rewrite py_max_0_nonneg; lra).
    set (b' := py_max 0 (balance - (M - balance * r))) in *.
    assert (Htail : (if Qle_bool b' 0 then []
                     else amortization_loop fuel (month + 1) r M b'
                            (cum + balance * r))
                    = amortization_loop fuel (month + 1) r M b'
                        (cum + balance * r)).
    { destruct fuel as [| fuel'].
      - destruct (Qle_bool b' 0); reflexivity.
      - pose proof (remaining_balance_pos r M fuel' Hr HM) as Hpos.
        assert (E : Qle_bool b' 0 = false) by (apply Qle_bool_false_iff; lra).
        rewrite E. reflexivity. }
    rewrite Htail.
    destruct (IH (month + 1)%Z b' (cum + balance * r) Hclamp) as [Hlen Hrows].
    split; [cbn; rewrite Hlen; reflexivity |].
    intros [| k] row Hk.
    + cbn in Hk. injection Hk as <-. cbn [Month Beginning_Balance
        Ending_Balance Interest Principal Cumulative_Interest].
      rewrite Nat.sub_0_r. cbn [Nat.sub].
      rewrite Nat.sub_0_r.
      change (inject_Z (Z.of_nat 1)) with 1.
      split; [lia |].
      split; [lra |].
      split; [exact Hclamp |].
      split; [rewrite Hb; reflexivity |].
      split; [ring |].
      lra.
    + cbn in Hk.
      destruct (Hrows k row Hk) as (Hm & Hbeg & Hend & Hint & Hsum & Hcum).
      cbn [Nat.sub].
      split; [lia |].
      split; [exact Hbeg |].
      split; [exact Hend |].
      split; [exact Hint |].
      split; [exact Hsum |].
      rewrite Hcum.
      rewrite (Nat2Z.inj_succ (S k)). unfold Z.succ.
      rewrite inject_Z_plus. change (inject_Z 1) with 1.
      lra.
Qed.

(** What the engine returns for a positive loan, a rate >= 0 and a term of
    at least one month, row by row. *)
Lemma schedule_rows (loan_amount annual_rate years : Q) :
  0 < loan_amount -> 0 <= annual_rate -> (1 <= py_int (years * 12))%Z ->
  let r := annual_rate / 100 / 12 in
  let n := Z.to_nat (py_int (years * 12)) in
  exists payment rows,
    pmt r (py_int (years * 12)) loan_amount = Ok payment
    /\ 0 < payment
    /\ make_amortization_schedule loan_amount annual_rate years = Ok rows
    /\ 0 <= r
    /\ remaining_balance r payment n == loan_amount
    /\ length rows = n
    /\ forall (k : nat) (row : amort_row),
         rows !! k = Some row ->
         Month row = (1 + Z.of_nat k)%Z
         /\ Beginning_Balance row == remaining_balance r payment (n - k)
         /\ Ending_Balance row == remaining_balance r payment (n - S k)
         /\ Interest row == remaining_balance r payment (n - k) * r
         /\ Interest row + Principal row == payment
         /\ Cumulative_Interest row
            == payment * inject_Z (Z.of_nat (S k))
               - (loan_amount - remaining_balance r payment (n - S k)).
Proof.
  intros Hloan Hrate Hn. cbv zeta.
  assert (Hr : 0 <= annual_rate / 100 / 12) by (const_div; lra).
  unfold make_amortization_schedule.
  set (r := annual_rate / 100 / 12) in *. clearbody r.
  set (n := py_int (years * 12)) in *. clearbody n.
  destruct (pmt_positive r n loan_amount Hr ltac:(lia) Hloan) as [M [HM HMpos]].
  pose proof (remaining_balance_of_pmt r n loan_amount M Hr ltac:(lia) HM) as HV.
  exists M. eexists.
  split; [exact HM |]. split; [exact HMpos |].
  rewrite HM, bind_ok. split; [reflexivity |].
  split; [exact Hr |]. split; [exact HV |].
  destruct (amortization_loop_nth r M (Z.to_nat n) Hr HMpos 1%Z loan_amount 0)
    as [Hlen Hrows]; [symmetry; exact HV |].
  split; [exact Hlen |].
  intros k row Hk.
  destruct (Hrows k row Hk) as (Hm & Hbeg & Hend & Hint & Hsum & Hcum).
  repeat (split; [assumption |]).
  rewrite Hcum, HV. ring.
Qed.

Lemma remaining_balance_lt_succ (r M : Q) (m : nat) :
  0 <= r -> 0 < M -> remaining_balance r M m < remaining_balance r M (S m).
Proof.
  intros Hr HM.
  pose proof (remaining_balance_step r M m Hr).
  pose proof (remaining_balance_interest_lt r M (S m) Hr HM). lra.
Qed.

Lemma remaining_balance_mono (r M : Q) (m m' : nat) :
  0 <= r -> 0 < M -> (m <= m')%nat ->
  remaining_balance r M m <= remaining_balance r M m'.
Proof.
  intros Hr HM Hle. induction Hle as [| m' _ IH].
  - apply Qle_refl.
  - pose proof (remaining_balance_lt_succ r M m' Hr HM). lra.
Qed.

(** ** Risk model *)

Lemma get_risk_label_cases (s : Q) :
  (s < 25 /\ get_risk_label s = Low)
  \/ (25 <= s /\ s < 50 /\ get_risk_label s = Moderate)
  \/ (50 <= s /\ s < 75 /\ get_risk_label s = High)
  \/ (75 <= s /\ get_risk_label s = VeryHigh).
Proof.
  unfold get_risk_label.
  destruct (Qlt_bool s 25) eqn:E1;
    [apply Qlt_bool_iff in E1; tauto | apply Qlt_bool_false_iff in E1].
  destruct (Qlt_bool s 50) eqn:E2;
    [apply Qlt_bool_iff in E2; tauto | apply Qlt_bool_false_iff in E2].
  destruct (Qlt_bool s 75) eqn:E3;
    [apply Qlt_bool_iff in E3; tauto | apply Qlt_bool_false_iff in E3].
  tauto.
Qed.

Lemma get_risk_label_monotone (s1 s2 : Q) :
  s1 <= s2 ->
  (label_rank (get_risk_label s1) <= label_rank (get_risk_label s2))%nat.
Proof.
  intros H.
  destruct (get_risk_label_cases s1) as [[? ->] | [(? & ? & ->) |
            [(? & ? & ->) | [? ->]]]];
  destruct (get_risk_label_cases s2) as [[? ->] | [(? & ? & ->) |
            [(? & ? & ->) | [? ->]]]];
  cbn; first [lia | exfalso; lra].
Qed.

(** X10.  The label of [get_risk_label_and_color] is the one read off the
    thresholds 25, 50 and 75, and it follows the inputs of the score: with
    the credit band fixed, a back-end DTI and an LTV that are both at least
    as high never give a milder label. *)
Theorem risk_label_follows_inputs :
  (forall s, fst (get_risk_label_and_color s) = label_name (get_risk_label s))
  /\ (forall (d1 d2 l1 l2 : Q) (band : string),
        d1 <= d2 -> l1 <= l2 ->
        (label_rank (get_risk_label (calculate_risk_score d1 l1 band))
         <= label_rank (get_risk_label (calculate_risk_score d2 l2 band)))%nat).
Proof.
  split.
  - intros s. unfold get_risk_label_and_color, get_risk_label.
    destruct (Qlt_bool s 25); [reflexivity |].
    destruct (Qlt_bool s 50); [reflexivity |].
    destruct (Qlt_bool s 75); reflexivity.
  - intros d1 d2 l1 l2 band Hd Hl.
    apply get_risk_label_monotone, calculate_risk_score_monotone; assumption.
Qed.

Lemma risk_label_follows_inputs_witness :
  0.2 <= 0.45 /\ 0.7 <= 0.95
  /\ (label_rank (get_risk_label (calculate_risk_score 0.2 0.7 "720-759"))
      <= label_rank (get_risk_label (calculate_risk_score 0.45 0.95 "720-759")))%nat.
Proof.
  assert (H1 : 0.2 <= 0.45) by lra.
  assert (H2 : 0.7 <= 0.95) by lra.
  split; [exact H1 |]. split; [exact H2 |].
  exact (proj2 risk_label_follows_inputs 0.2 0.45 0.7 0.95 "720-759" H1 H2).
Defined.

Lemma credit_risk_range (band : string) :
  0.1 <= dict_get credit_risks band 0.5 <= 1.
Proof.
  rewrite credit_risk_table. apply creditRisk_spec_range.
Qed.

(** X11.  For a DTI and an LTV that are not negative the score is at least
    2, whatever the band; and once the DTI reaches 50% and the LTV 100% the
    score is at least 82 and the label is "Very High" for every band, the
    best one included. *)
Theorem risk_score_floor_and_saturation (dti ltv : Q) (band : string) :
  (0 <= dti -> 0 <= ltv -> 2 <= calculate_risk_score dti ltv band)
  /\ (0.5 <= dti -> 1 <= ltv ->
      82 <= calculate_risk_score dti ltv band
      /\ fst (get_risk_label_and_color (calculate_risk_score dti ltv band))
         = "Very High").
Proof.
  pose proof (credit_risk_range band) as Hc.
  split.
  - intros Hd Hl. unfold calculate_risk_score.
    set (c := dict_get credit_risks band 0.5) in *. clearbody c.
    minmax_lra.
  - intros Hd Hl.
    assert (H82 : 82 <= calculate_risk_score dti ltv band).
    { unfold calculate_risk_score.
      set (c := dict_get credit_risks band 0.5) in *. clearbody c.
      minmax_lra. }
    split; [exact H82 |].
    unfold get_risk_label_and_color.
    set (s := calculate_risk_score dti ltv band) in *.
    assert (E1 : Qlt_bool s 25 = false) by (apply Qlt_bool_false_iff; lra).
    assert (E2 : Qlt_bool s 50 = false) by (apply Qlt_bool_false_iff; lra).
    assert (E3 : Qlt_bool s 75 = false) by (apply Qlt_bool_false_iff; lra).
    rewrite E1, E2, E3. reflexivity.
Qed.

Lemma risk_score_floor_and_saturation_witness :
  (0 <= 0 /\ 2 <= calculate_risk_score 0 0 "760+")
  /\ (0.5 <= 0.6 /\ 1 <= 1
      /\ fst (get_risk_label_and_color (calculate_risk_score 0.6 1 "760+"))
         = "Very High").
Proof.
  assert (H1 : 0 <= 0) by lra.
  assert (H2 : 0.5 <= 0.6) by lra.
  assert (H3 : 1 <= 1) by lra.
  split.
  - split; [exact H1 |].
    exact (proj1 (risk_score_floor_and_saturation 0 0 "760+") H1 H1).
  - split; [exact H2 |]. split; [exact H3 |].
    exact (proj2 (proj2 (risk_score_floor_and_saturation 0.6 1 "760+") H2 H3)).
Defined.

(** X12.  A "Low" label is only given, to a DTI and an LTV that are not
    negative, when the back-end DTI is under 23% and the LTV under 23/30
    (about 76.7%). *)
Theorem low_label_bounds (dti ltv : Q) (band : string) :
  0 <= dti -> 0 <= ltv ->
  fst (get_risk_label_and_color (calculate_risk_score dti ltv band)) = "Low" ->
  dti < 0.23 /\ ltv < (23 # 30).
Proof.
  intros Hd Hl Hlow.
  assert (Hs : calculate_risk_score dti ltv band < 25).
  { unfold get_risk_label_and_color in Hlow.
    destruct (Qlt_bool (calculate_risk_score dti ltv band) 25) eqn:E1;
      [now apply Qlt_bool_iff |].
    destruct (Qlt_bool (calculate_risk_score dti ltv band) 50);
      [discriminate Hlow |].
    destruct (Qlt_bool (calculate_risk_score dti ltv band) 75);
      discriminate Hlow. }
  clear Hlow. revert Hs.
  pose proof (credit_risk_range band) as Hc.
  unfold calculate_risk_score.
  set (c := dict_get credit_risks band 0.5) in *. clearbody c.
  const_div.
  repeat first
    [ name_minmax_with py_min py_min_cases
    | name_minmax_with py_max py_max_cases ].
  intros Hs. split_cases; split; lra.
Qed.

Lemma low_label_bounds_witness :
  0 <= 0.05 /\ 0 <= 0.5
  /\ fst (get_risk_label_and_color (calculate_risk_score 0.05 0.5 "760+")) = "Low"
  /\ 0.05 < 0.23 /\ 0.5 < (23 # 30).
Proof.
  assert (H1 : 0 <= 0.05) by lra.
  assert (H2 : 0 <= 0.5) by lra.
  assert (H3 : fst (get_risk_label_and_color
                      (calculate_risk_score 0.05 0.5 "760+")) = "Low")
    by (vm_compute; reflexivity).
  split; [exact H1 |]. split; [exact H2 |]. split; [exact H3 |].
  exact (low_label_bounds 0.05 0.5 "760+" H1 H2 H3).
Defined.

(** ** The core calculation *)

Lemma bind_ok_inv {A B : Type} (m : result A) (k : A -> result B) (b : B) :
  (m ≫= k) = Ok b -> exists a, m = Ok a /\ k a = Ok b.
Proof.
  destruct m as [a | e]; [rewrite bind_ok | rewrite bind_err].
  - intros H. exists a. split; [reflexivity | exact H].
  - intros H. discriminate H.
Qed.

Lemma py_div_ok_inv (n d q : Q) :
  py_div n d = Ok q -> ~ d == 0 /\ q = n / d.
Proof.
  unfold py_div. destruct (Qeq_bool d 0) eqn:E; intros H.
  - discriminate H.
  - apply Qeq_bool_false_iff in E. injection H as <-. split; [exact E | reflexivity].
Qed.

Lemma priced_mode_inv (i : inputs) (price : Q) (c : calculation) :
  priced_mode i price = Ok c ->
  c_home_price c = price
  /\ down_payment_amount i < price
  /\ c_monthly_pmi c
     = (if Qlt_bool (down_payment_percent i) 20
        then c_loan_amount c * pmi_rate i / 100 / 12 else 0)
  /\ bundle_facts i c.
Proof.
  unfold priced_mode. cbv zeta.
  destruct (Qle_bool price (down_payment_amount i)) eqn:Hdp;
    [intros H; discriminate H |].
  apply Qle_bool_false_iff in Hdp.
  intros H.
  apply bind_ok_inv in H as (pi & Hpi & H).
  apply bind_ok_inv in H as (fe & Hfe & H).
  apply bind_ok_inv in H as (be & Hbe & H).
  apply bind_ok_inv in H as (l & Hl & H).
  apply py_div_ok_inv in Hfe as [Hinc ->].
  apply py_div_ok_inv in Hbe as [_ ->].
  apply py_div_ok_inv in Hl as [Hprice ->].
  injection H as <-. unfold bundle_facts. cbn.
  repeat split; try reflexivity; assumption.
Qed.

Lemma finish_max_affordability_inv (i : inputs) (estimated_price : Q)
    (c : calculation) :
  finish_max_affordability i estimated_price = Ok c ->
  c_home_price c = py_max estimated_price (down_payment_amount i + 1000)
  /\ c_monthly_pmi c
     = (if Qlt_bool (down_payment_amount i / c_home_price c) 0.20
        then c_loan_amount c * pmi_rate i / 100 / 12 else 0)
  /\ bundle_facts i c.
Proof.
  unfold finish_max_affordability. cbv zeta.
  intros H.
  apply bind_ok_inv in H as (pi & Hpi & H).
  apply bind_ok_inv in H as (ratio & Hratio & H).
  apply bind_ok_inv in H as (fe & Hfe & H).
  apply bind_ok_inv in H as (be & Hbe & H).
  apply bind_ok_inv in H as (l & Hl & H).
  apply py_div_ok_inv in Hratio as [Hprice ->].
  apply py_div_ok_inv in Hfe as [Hinc ->].
  apply py_div_ok_inv in Hbe as [_ ->].
  apply py_div_ok_inv in Hl as [_ ->].
  injection H as <-. unfold bundle_facts. cbn.
  repeat split; try reflexivity; assumption.
Qed.

Lemma max_affordability_mode_inv (i : inputs) (ex : loop_exit)
    (c : calculation) :
  max_affordability_mode i = Ok (ex, c) ->
  price_loop i 10 0 seed_price = Ok ex
  /\ finish_max_affordability i (exit_price ex) = Ok c.
Proof.
  unfold max_affordability_mode. intros H.
  apply bind_ok_inv in H as (ex' & Hex & H).
  apply bind_ok_inv in H as (c' & Hc & H).
  injection H as <- <-. split; assumption.
Qed.

Lemma core_calculation_inv (i : inputs) (c : calculation) :
  core_calculation i = Ok c ->
  bundle_facts i c
  /\ (c_monthly_pmi c = 0
      \/ c_monthly_pmi c = c_loan_amount c * pmi_rate i / 100 / 12)
  /\ down_payment_amount i < c_home_price c.
Proof.
  unfold core_calculation.
  destruct (price_mode i), (truthy_price (home_price i)) as [price |];
    intros H;
    try (apply bind_ok_inv in H as ([ex c'] & Hm & H); injection H as <-;
         cbn [snd];
         apply max_affordability_mode_inv in Hm as [_ Hfin];
         apply finish_max_affordability_inv in Hfin as (Hp & Hpmi & Hfacts);
         split; [exact Hfacts |]; split;
         [ rewrite Hpmi; destruct (Qlt_bool _ _); [right | left]; reflexivity
         | rewrite Hp;
           destruct (py_max_cases (exit_price ex) (down_payment_amount i + 1000))
             as [[? E] | [? E]]; rewrite E; lra ]).
  apply priced_mode_inv in H as (Hp & Hdp & Hpmi & Hfacts).
  split; [exact Hfacts |]. split.
  - rewrite Hpmi. destruct (Qlt_bool _ _); [right | left]; reflexivity.
  - rewrite Hp. exact Hdp.
Qed.



Lemma core_calculation_max_ok (i : inputs) :
  valid_inputs i -> price_mode i = FindMaxAffordability ->
  exists c, core_calculation i = Ok c.
Proof.
  intros Hvalid Hmode.
  destruct (max_affordability_mode_ok i Hvalid) as (ex & c & E & _).
  exists c. unfold core_calculation. rewrite Hmode, E. reflexivity.
Qed.

Lemma core_calculation_priced_ok (i : inputs) (price : Q) :
  valid_inputs i -> price_mode i = SetHomePrice ->
  home_price i = Some price -> down_payment_amount i < price ->
  exists c, core_calculation i = Ok c /\ priced_mode i price = Ok c.
Proof.
  intros Hvalid Hmode Hprice Hdp.
  destruct (priced_mode_ok i Hvalid price Hdp) as [c E].
  exists c. split; [| exact E].
  rewrite (core_calculation_priced i price Hmode Hprice); [exact E |].
  destruct Hvalid. lra.
Qed.

Lemma pmi_charged_inputs_valid : valid_inputs pmi_charged_inputs.
Proof.
  constructor; cbn; try (split; lra); try lra.
  - split; [intros _; discriminate | reflexivity].
  - unfold loan_term_option. lia.
Qed.

Lemma pmi_charged_inputs_result :
  exists c, core_calculation pmi_charged_inputs = Ok c
            /\ priced_mode pmi_charged_inputs 400000 = Ok c.
Proof.
  apply core_calculation_priced_ok;
    [exact pmi_charged_inputs_valid | reflexivity | reflexivity | cbn; lra].
Qed.

Lemma converging_inputs_result :
  exists c, core_calculation converging_inputs = Ok c.
Proof.
  apply core_calculation_max_ok;
    [exact converging_inputs_valid | reflexivity].
Qed.

(** X13.  Whatever the inputs, a result of the calculation in either mode
    is consistent: the loan is the price less the down payment and is
    positive, the total is the sum of its five components, LTV times the
    price is the loan, front-end DTI times the monthly income is the total,
    and the back-end DTI exceeds the front-end DTI by the existing debts
    over the monthly income. *)
Theorem core_calculation_consistent (i : inputs) (c : calculation) :
  core_calculation i = Ok c ->
  c_loan_amount c == c_home_price c - down_payment_amount i
  /\ 0 < c_loan_amount c
  /\ c_total_monthly_payment c
     == c_monthly_pi c + c_monthly_tax c + c_monthly_insurance c
        + c_monthly_hoa c + c_monthly_pmi c
  /\ c_ltv c * c_home_price c == c_loan_amount c
  /\ c_front_end_dti c * (annual_income i / 12) == c_total_monthly_payment c
  /\ c_back_end_dti c - c_front_end_dti c
     == existing_debt i / (annual_income i / 12).
Proof.
  intros H.
  destruct (core_calculation_inv i c H) as (Hfacts & _ & Hdp).
  destruct Hfacts as (_ & Hloan & _ & _ & _ & _ & Htot & Hfe & Hbe & Hltv
                      & Hinc & Hprice).
  rewrite Hloan, Htot, Hfe, Hbe, Hltv, Htot, Hloan.
  split; [reflexivity |]. split; [lra |]. split; [reflexivity |].
  assert (Hinc' : ~ annual_income i == 0)
    by (intros H0; apply Hinc; rewrite H0; reflexivity).
  split; [field; exact Hprice |].
  split; field; exact Hinc'.
Qed.

Lemma core_calculation_consistent_witness :
  returns (core_calculation pmi_charged_inputs)
    (fun c =>
       c_loan_amount c
       == c_home_price c - down_payment_amount pmi_charged_inputs
       /\ 0 < c_loan_amount c
       /\ c_total_monthly_payment c
          == c_monthly_pi c + c_monthly_tax c + c_monthly_insurance c
             + c_monthly_hoa c + c_monthly_pmi c
       /\ c_ltv c * c_home_price c == c_loan_amount c
       /\ c_front_end_dti c * (annual_income pmi_charged_inputs / 12)
          == c_total_monthly_payment c
       /\ c_back_end_dti c - c_front_end_dti c
          == existing_debt pmi_charged_inputs
             / (annual_income pmi_charged_inputs / 12)).
Proof.
  destruct pmi_charged_inputs_result as (c & E & _).
  unfold returns. rewrite E.
  exact (core_calculation_consistent pmi_charged_inputs c E).
Defined.

(** X14.  On inputs the sidebar admits, a result has a positive principal
    and interest payment, no negative tax, insurance, HOA or PMI amount, an
    LTV above 0 and at most 1, and a positive front-end DTI that the
    back-end DTI is never below. *)
Theorem core_calculation_ranges (i : inputs) (c : calculation) :
  valid_inputs i -> core_calculation i = Ok c ->
  0 < c_monthly_pi c
  /\ 0 <= c_monthly_tax c
  /\ 0 <= c_monthly_insurance c
  /\ 0 <= c_monthly_hoa c
  /\ 0 <= c_monthly_pmi c
  /\ 0 < c_ltv c <= 1
  /\ 0 < c_front_end_dti c <= c_back_end_dti c.
Proof.
  intros Hvalid H.
  destruct (core_calculation_inv i c H) as (Hfacts & Hpmi & Hdp).
  destruct Hfacts as (_ & Hloan & Hpi & Htax & Hins & Hhoa & Htot & Hfe & Hbe
                      & Hltv & _ & _).
  pose proof (valid_monthly_rate i Hvalid) as Hrate.
  pose proof (valid_total_months i Hvalid) as Hmonths.
  assert (Hloanpos : 0 < c_loan_amount c) by (rewrite Hloan; lra).
  destruct (pmt_positive _ _ _ ltac:(apply Qlt_le_weak; exact Hrate)
              Hmonths Hloanpos) as (m & Em & Hm).
  rewrite Hpi in Em. injection Em as Em. rewrite <- Em in Hm. clear Em.
  destruct Hvalid.
  assert (Hprice : 0 < c_home_price c) by lra.
  assert (Htaxnn : 0 <= c_monthly_tax c).
  { rewrite Htax.
    assert (0 <= c_home_price c * property_tax_rate i)
      by (apply Qmult_le_0_compat; lra).
    const_div. lra. }
  assert (Hinsnn : 0 <= c_monthly_insurance c) by (rewrite Hins; const_div; lra).
  assert (Hhoann : 0 <= c_monthly_hoa c) by (rewrite Hhoa; lra).
  assert (Hpminn : 0 <= c_monthly_pmi c).
  { destruct Hpmi as [-> | ->]; [lra |].
    assert (0 <= c_loan_amount c * pmi_rate i)
      by (apply Qmult_le_0_compat; lra).
    const_div. lra. }
  assert (Hinc : 0 < annual_income i / 12) by (const_div; lra).
  assert (Htotpos : 0 < c_total_monthly_payment c) by (rewrite Htot; lra).
  repeat (split; [assumption |]).
  rewrite Hltv, Hfe, Hbe.
  set (mi := annual_income i / 12) in *. clearbody mi.
  clear Hltv Hfe Hbe Hpi Hrate Htax Hins H Hpmi.
  split; [split | split].
  - apply Qlt_shift_div_l; lra.
  - rewrite Hloan. apply Qle_shift_div_r; lra.
  - apply Qlt_shift_div_l; lra.
  - apply Qle_shift_div_l; [exact Hinc |].
    assert (E : c_total_monthly_payment c / mi * mi
                == c_total_monthly_payment c) by (field; lra).
    rewrite E. lra.
Qed.

Lemma core_calculation_ranges_witness :
  valid_inputs converging_inputs
  /\ returns (core_calculation converging_inputs)
       (fun c =>
          0 < c_monthly_pi c
          /\ 0 <= c_monthly_tax c
          /\ 0 <= c_monthly_insurance c
          /\ 0 <= c_monthly_hoa c
          /\ 0 <= c_monthly_pmi c
          /\ 0 < c_ltv c <= 1
          /\ 0 < c_front_end_dti c <= c_back_end_dti c).
Proof.
  split; [exact converging_inputs_valid |].
  destruct converging_inputs_result as (c & E).
  unfold returns. rewrite E.
  exact (core_calculation_ranges converging_inputs c
           converging_inputs_valid E).
Defined.

(** X15.  In max-affordability mode the returned price is never less than
    the down payment plus 1000, so the loan is at least 1000; and PMI is
    charged exactly when the down payment is under 20% of that price and
    the PMI rate is positive: here the gate is the actual ratio, not the
    percent field. *)
Theorem max_affordability_floor_and_pmi (i : inputs) (ex : loop_exit)
    (c : calculation) :
  max_affordability_mode i = Ok (ex, c) ->
  down_payment_amount i + 1000 <= c_home_price c
  /\ 1000 <= c_loan_amount c
  /\ (exit_price ex <= down_payment_amount i + 1000 ->
      c_home_price c == down_payment_amount i + 1000)
  /\ (0 < c_monthly_pmi c
      <-> down_payment_amount i / c_home_price c < 0.20 /\ 0 < pmi_rate i).
Proof.
  intros H.
  apply max_affordability_mode_inv in H as [_ Hfin].
  apply finish_max_affordability_inv in Hfin as (Hp & Hpmi & Hfacts).
  destruct Hfacts as (_ & Hloan & _).
  assert (Hfloor : down_payment_amount i + 1000 <= c_home_price c).
  { rewrite Hp.
    destruct (py_max_cases (exit_price ex) (down_payment_amount i + 1000))
      as [[? E] | [? E]]; rewrite E; lra. }
  split; [exact Hfloor |]. split; [rewrite Hloan; lra |]. split.
  - intros Hle. rewrite Hp.
    destruct (py_max_cases (exit_price ex) (down_payment_amount i + 1000))
      as [[? E] | [? E]]; rewrite E; lra.
  - rewrite Hpmi.
    assert (Hpos : 0 < c_loan_amount c) by (rewrite Hloan; lra).
    destruct (Qlt_bool (down_payment_amount i / c_home_price c) 0.20) eqn:G.
    + apply Qlt_bool_iff in G. const_div. split.
      * intros Hc. split; [exact G |].
        destruct (Qlt_le_dec 0 (pmi_rate i)) as [? | Hle]; [assumption |].
        assert (c_loan_amount c * pmi_rate i <= 0) by nra. lra.
      * intros [_ Hr].
        assert (0 < c_loan_amount c * pmi_rate i)
          by (apply Qmult_lt_0_compat; assumption).
        lra.
    + apply Qlt_bool_false_iff in G. const_div.
      split; [intros Hc | intros [Hc _]]; lra.
Qed.

Lemma max_affordability_floor_and_pmi_witness :
  returns (max_affordability_mode converging_inputs)
    (fun r =>
       down_payment_amount converging_inputs + 1000 <= c_home_price (snd r)
       /\ 1000 <= c_loan_amount (snd r)).
Proof.
  destruct (max_affordability_mode_ok converging_inputs
              converging_inputs_valid) as (ex & c & E & _).
  unfold returns. rewrite E. cbn [snd].
  pose proof (max_affordability_floor_and_pmi converging_inputs ex c E)
    as (H1 & H2 & _).
  split; [exact H1 | exact H2].
Defined.

Lemma Qlt_div_iff (a b c : Q) : 0 < c -> (a < b / c <-> a * c < b).
Proof.
  intros Hc. split.
  - intros H. apply (Qmult_lt_r _ _ c Hc) in H.
    assert (E : b / c * c == b) by (field; lra).
    rewrite E in H. exact H.
  - intros H. apply Qlt_shift_div_l; assumption.
Qed.

(** The DTI banner is shown when the payment is over the DTI target. *)
Lemma dti_limit_error_target (i : inputs) (c : calculation) :
  bundle_facts i c -> 0 < annual_income i ->
  (dti_limit_error i c = true
   <-> max_payment_constraint i < c_total_monthly_payment c).
Proof.
  intros Hfacts Hincome.
  destruct Hfacts as (_ & _ & _ & _ & _ & _ & _ & Hfe & Hbe & _).
  unfold dti_limit_error, max_payment_constraint. cbv zeta.
  rewrite orb_true_iff, !Qlt_bool_iff, Hfe, Hbe.
  assert (Hmi : 0 < annual_income i / 12) by (const_div; lra).
  set (mi := annual_income i / 12) in *. clearbody mi.
  rewrite !(Qlt_div_iff _ _ mi Hmi).
  set (t := c_total_monthly_payment c). clearbody t.
  clear Hfe Hbe.
  destruct (py_min_cases (mi * max_front_dti i)
              (mi * max_back_dti i - existing_debt i)) as [[Hlt E] | [Hle E]];
    rewrite E; split; intros H; lra.
Qed.

(** X16.  For a positive income, the "DTI exceeds recommended limits"
    banner is shown on a result exactly when its total monthly payment is
    above the target [min(income * max_front_dti, income * max_back_dti -
    existing_debt)] of max-affordability mode (monthly income), in either
    mode. *)
Theorem dti_limit_error_iff (i : inputs) (c : calculation) :
  core_calculation i = Ok c -> 0 < annual_income i ->
  (dti_limit_error i c = true
   <-> max_payment_constraint i < c_total_monthly_payment c).
Proof.
  intros H Hincome.
  destruct (core_calculation_inv i c H) as (Hfacts & _).
  apply dti_limit_error_target; assumption.
Qed.

Lemma dti_limit_error_iff_witness :
  0 < annual_income converging_inputs
  /\ returns (core_calculation converging_inputs)
       (fun c =>
          dti_limit_error converging_inputs c = true
          <-> max_payment_constraint converging_inputs
              < c_total_monthly_payment c).
Proof.
  assert (H1 : 0 < annual_income converging_inputs) by (cbn; lra).
  split; [exact H1 |].
  destruct converging_inputs_result as (c & E).
  unfold returns. rewrite E.
  exact (dti_limit_error_iff converging_inputs c E H1).
Defined.

Lemma py_int_months (t : Z) : py_int (inject_Z t * 12) = (t * 12)%Z.
Proof.
  unfold py_int. cbn. apply Z.quot_1_r.
Qed.

(** X17.  On inputs the sidebar admits, the total interest the script
    shows, [monthly_pi * loan_term * 12 - loan_amount], is positive, and
    it is the cumulative interest of the last row of the amortization
    schedule the script draws for the same loan, rate and term. *)
Theorem total_interest_of_schedule (i : inputs) (c : calculation) :
  valid_inputs i -> core_calculation i = Ok c ->
  0 < total_interest i c
  /\ exists rows last_row,
       make_amortization_schedule (c_loan_amount c) (interest_rate i)
         (inject_Z (loan_term i)) = Ok rows
       /\ last rows = Some last_row
       /\ Cumulative_Interest last_row == total_interest i c.
Proof.
  intros Hvalid H.
  destruct (core_calculation_inv i c H) as (Hfacts & _ & Hdp).
  destruct Hfacts as (_ & Hloan & Hpi & _).
  pose proof (valid_monthly_rate i Hvalid) as Hrate.
  pose proof (valid_total_months i Hvalid) as Hmonths.
  assert (Hloanpos : 0 < c_loan_amount c) by (rewrite Hloan; lra).
  unfold total_interest.
  assert (Hmul : c_monthly_pi c * inject_Z (loan_term i) * 12
                 == c_monthly_pi c * inject_Z (loan_term i * 12)).
  { rewrite inject_Z_mult. change (inject_Z 12) with 12. ring. }
  split.
  - assert (Hn1 : (1 <= loan_term i * 12)%Z) by lia.
    pose proof (payments_exceed_loan _ _ _ _ Hrate Hn1 Hloanpos Hpi).
    rewrite Hmul. lra.
  - assert (Hn : (1 <= py_int (inject_Z (loan_term i) * 12))%Z)
      by (rewrite py_int_months; lia).
    assert (Hannual : 0 <= interest_rate i) by (destruct Hvalid; lra).
    destruct (schedule_rows (c_loan_amount c) (interest_rate i)
                (inject_Z (loan_term i)) Hloanpos Hannual Hn)
      as (M & rows & HMeq & HM & E & Hr & HV & Hlen & Hrows).
    cbv zeta in *. rewrite py_int_months in *.
    rewrite Hpi in HMeq. injection HMeq as <-.
    set (n := Z.to_nat (loan_term i * 12)) in *.
    destruct (last rows) as [row |] eqn:Hlast.
    + exists rows, row. split; [exact E |]. split; [exact Hlast |].
      rewrite last_lookup in Hlast.
      destruct (Hrows _ row Hlast) as (_ & _ & _ & _ & _ & Hcum).
      rewrite Hcum, Hlen, Hmul.
      replace (n - S (pred n))%nat with 0%nat by lia.
      replace (Z.of_nat (S (pred n))) with (loan_term i * 12)%Z by lia.
      change (remaining_balance (interest_rate i / 100 / 12)
                (c_monthly_pi c) 0) with 0.
      ring.
    + rewrite last_None in Hlast. subst rows. cbn in Hlen. lia.
Qed.

Lemma total_interest_of_schedule_witness :
  valid_inputs converging_inputs
  /\ returns (core_calculation converging_inputs)
       (fun c => 0 < total_interest converging_inputs c).
Proof.
  split; [exact converging_inputs_valid |].
  destruct converging_inputs_result as (c & E).
  unfold returns. rewrite E.
  exact (proj1 (total_interest_of_schedule converging_inputs c
                  converging_inputs_valid E)).
Defined.

(** ** The schedule the script draws *)

(** The engine on the loan, rate and term of a result, row by row. *)
Lemma drawn_schedule_rows (i : inputs) (c : calculation) :
  valid_inputs i -> core_calculation i = Ok c ->
  let r := interest_rate i / 100 / 12 in
  let n := Z.to_nat (loan_term i * 12) in
  exists rows,
    make_amortization_schedule (c_loan_amount c) (interest_rate i)
      (inject_Z (loan_term i)) = Ok rows
    /\ 0 < c_monthly_pi c
    /\ 0 < r
    /\ remaining_balance r (c_monthly_pi c) n == c_loan_amount c
    /\ length rows = n
    /\ forall (k : nat) (row : amort_row),
         rows !! k = Some row ->
         Month row = (1 + Z.of_nat k)%Z
         /\ Beginning_Balance row
            == remaining_balance r (c_monthly_pi c) (n - k)
         /\ Ending_Balance row
            == remaining_balance r (c_monthly_pi c) (n - S k)
         /\ Interest row == remaining_balance r (c_monthly_pi c) (n - k) * r
         /\ Interest row + Principal row == c_monthly_pi c.
Proof.
  intros Hvalid H. cbv zeta.
  destruct (core_calculation_inv i c H) as (Hfacts & _ & Hdp).
  destruct Hfacts as (_ & Hloan & Hpi & _).
  pose proof (valid_monthly_rate i Hvalid) as Hrate.
  pose proof (valid_total_months i Hvalid) as Hmonths.
  assert (Hloanpos : 0 < c_loan_amount c) by (rewrite Hloan; lra).
  assert (Hn : (1 <= py_int (inject_Z (loan_term i) * 12))%Z)
    by (rewrite py_int_months; lia).
  assert (Hannual : 0 <= interest_rate i) by (destruct Hvalid; lra).
  destruct (schedule_rows (c_loan_amount c) (interest_rate i)
              (inject_Z (loan_term i)) Hloanpos Hannual Hn)
    as (M & rows & HMeq & HM & E & Hr & HV & Hlen & Hrows).
  cbv zeta in *. rewrite py_int_months in *.
  rewrite Hpi in HMeq. injection HMeq as <-.
  exists rows. split; [exact E |]. split; [exact HM |].
  split; [exact Hrate |]. split; [exact HV |]. split; [exact Hlen |].
  intros k row Hk.
  destruct (Hrows k row Hk) as (Hm & Hbeg & Hend & Hint & Hsum & _).
  repeat (split; [assumption |]). exact Hsum.
Qed.

(** X6.  On inputs the sidebar admits, the amortization schedule the script
    draws for a result has one row for every month of the term, 180, 240 or
    360 of them, numbered 1, 2, ... in order: the loop does not stop
    early. *)
Theorem schedule_length_and_months (i : inputs) (c : calculation) :
  valid_inputs i -> core_calculation i = Ok c ->
  exists rows,
    make_amortization_schedule (c_loan_amount c) (interest_rate i)
      (inject_Z (loan_term i)) = Ok rows
    /\ Z.of_nat (length rows) = (loan_term i * 12)%Z
    /\ (length rows = 180 \/ length rows = 240 \/ length rows = 360)%nat
    /\ forall (k : nat) (row : amort_row),
         rows !! k = Some row -> Month row = (Z.of_nat k + 1)%Z.
Proof.
  intros Hvalid H.
  destruct (drawn_schedule_rows i c Hvalid H)
    as (rows & E & _ & _ & _ & Hlen & Hrows).
  pose proof (valid_total_months i Hvalid) as Hmonths.
  exists rows. split; [exact E |]. split; [rewrite Hlen; lia |]. split.
  - rewrite Hlen. destruct (vi_term i Hvalid) as [-> | [-> | ->]];
      [left | right; left | right; right]; reflexivity.
  - intros k row Hk. destruct (Hrows k row Hk) as (Hm & _). lia.
Qed.

Lemma schedule_length_and_months_witness :
  valid_inputs converging_inputs
  /\ returns (core_calculation converging_inputs)
       (fun c => exists rows,
          make_amortization_schedule (c_loan_amount c)
            (interest_rate converging_inputs)
            (inject_Z (loan_term converging_inputs)) = Ok rows
          /\ Z.of_nat (length rows) = (loan_term converging_inputs * 12)%Z
          /\ (length rows = 180 \/ length rows = 240 \/ length rows = 360)%nat
          /\ forall (k : nat) (row : amort_row),
               rows !! k = Some row -> Month row = (Z.of_nat k + 1)%Z).
Proof.
  split; [exact converging_inputs_valid |].
  destruct converging_inputs_result as (c & E).
  unfold returns. rewrite E.
  exact (schedule_length_and_months converging_inputs c
           converging_inputs_valid E).
Defined.

(** X7.  In that schedule the first row begins with the loan of the
    result, each row begins where the row before it ended, and every row
    ends lower than it began and never below zero. *)
Theorem schedule_balance_chain (i : inputs) (c : calculation) :
  valid_inputs i -> core_calculation i = Ok c ->
  exists rows,
    make_amortization_schedule (c_loan_amount c) (interest_rate i)
      (inject_Z (loan_term i)) = Ok rows
    /\ (forall row, rows !! 0%nat = Some row ->
                    Beginning_Balance row == c_loan_amount c)
    /\ (forall (k : nat) (a b : amort_row),
          rows !! k = Some a -> rows !! S k = Some b ->
          Beginning_Balance b == Ending_Balance a)
    /\ (forall (k : nat) (row : amort_row),
          rows !! k = Some row ->
          0 <= Ending_Balance row
          /\ Ending_Balance row < Beginning_Balance row).
Proof.
  intros Hvalid H.
  destruct (drawn_schedule_rows i c Hvalid H)
    as (rows & E & HM & Hr & HV & Hlen & Hrows).
  cbv zeta in *.
  set (r := interest_rate i / 100 / 12) in *. clearbody r.
  set (n := Z.to_nat (loan_term i * 12)) in *.
  exists rows. split; [exact E |]. split; [| split].
  - intros row H0. destruct (Hrows 0%nat row H0) as (_ & Hbeg & _).
    rewrite Hbeg, Nat.sub_0_r. exact HV.
  - intros k a b Ha Hb.
    destruct (Hrows k a Ha) as (_ & _ & Hend & _).
    destruct (Hrows (S k) b Hb) as (_ & Hbeg & _).
    rewrite Hbeg, Hend. reflexivity.
  - intros k row Hk.
    destruct (Hrows k row Hk) as (_ & Hbeg & Hend & _).
    apply lookup_lt_Some in Hk. rewrite Hlen in Hk.
    rewrite Hbeg, Hend. split.
    + apply remaining_balance_nonneg; lra.
    + replace (n - k)%nat with (S (n - S k)) by lia.
      apply remaining_balance_lt_succ; [lra | assumption].
Qed.

Lemma schedule_balance_chain_witness :
  valid_inputs converging_inputs
  /\ returns (core_calculation converging_inputs)
       (fun c => exists rows,
          make_amortization_schedule (c_loan_amount c)
            (interest_rate converging_inputs)
            (inject_Z (loan_term converging_inputs)) = Ok rows
          /\ (forall row, rows !! 0%nat = Some row ->
                          Beginning_Balance row == c_loan_amount c)
          /\ (forall (k : nat) (a b : amort_row),
                rows !! k = Some a -> rows !! S k = Some b ->
                Beginning_Balance b == Ending_Balance a)
          /\ (forall (k : nat) (row : amort_row),
                rows !! k = Some row ->
                0 <= Ending_Balance row
                /\ Ending_Balance row < Beginning_Balance row)).
Proof.
  split; [exact converging_inputs_valid |].
  destruct converging_inputs_result as (c & E).
  unfold returns. rewrite E.
  exact (schedule_balance_chain converging_inputs c
           converging_inputs_valid E).
Defined.

(** X8.  In that schedule every row splits the monthly principal and
    interest payment of the result into an interest part and a principal
    part, both positive, and the interest part is lower in every later
    month. *)
Theorem schedule_payment_split (i : inputs) (c : calculation) :
  valid_inputs i -> core_calculation i = Ok c ->
  exists rows,
    make_amortization_schedule (c_loan_amount c) (interest_rate i)
      (inject_Z (loan_term i)) = Ok rows
    /\ (forall (k : nat) (row : amort_row),
          rows !! k = Some row ->
          Interest row + Principal row == c_monthly_pi c
          /\ 0 < Interest row
          /\ 0 < Principal row)
    /\ (forall (j k : nat) (a b : amort_row),
          (j < k)%nat -> rows !! j = Some a -> rows !! k = Some b ->
          Interest b < Interest a).
Proof.
  intros Hvalid H.
  destruct (drawn_schedule_rows i c Hvalid H)
    as (rows & E & HM & Hr & HV & Hlen & Hrows).
  cbv zeta in *.
  set (r := interest_rate i / 100 / 12) in *. clearbody r.
  set (n := Z.to_nat (loan_term i * 12)) in *.
  set (M := c_monthly_pi c) in *. clearbody M.
  assert (Hr0 : 0 <= r) by lra.
  exists rows. split; [exact E |]. split.
  - intros k row Hk.
    destruct (Hrows k row Hk) as (_ & _ & _ & Hint & Hsum).
    apply lookup_lt_Some in Hk. rewrite Hlen in Hk.
    split; [exact Hsum |].
    pose proof (remaining_balance_interest_lt r M (n - k) Hr0 HM) as Hlt.
    assert (Hpos : 0 < remaining_balance r M (n - k)).
    { replace (n - k)%nat with (S (n - S k)) by lia.
      apply remaining_balance_pos; assumption. }
    assert (0 < remaining_balance r M (n - k) * r)
      by (apply Qmult_lt_0_compat; assumption).
    split; lra.
  - intros j k a b Hjk Ha Hb.
    destruct (Hrows j a Ha) as (_ & _ & _ & Hia & _).
    destruct (Hrows k b Hb) as (_ & _ & _ & Hib & _).
    apply lookup_lt_Some in Ha. rewrite Hlen in Ha.
    rewrite Hia, Hib.
    pose proof (remaining_balance_mono r M (n - k) (n - S j) Hr0 HM
                  ltac:(lia)) as Hmono.
    pose proof (remaining_balance_lt_succ r M (n - S j) Hr0 HM) as Hstep.
    replace (S (n - S j)) with (n - j)%nat in Hstep by lia.
    assert (0 < (remaining_balance r M (n - j)
                 - remaining_balance r M (n - k)) * r)
      by (apply Qmult_lt_0_compat; lra).
    lra.
Qed.

Lemma schedule_payment_split_witness :
  valid_inputs converging_inputs
  /\ returns (core_calculation converging_inputs)
       (fun c => exists rows,
          make_amortization_schedule (c_loan_amount c)
            (interest_rate converging_inputs)
            (inject_Z (loan_term converging_inputs)) = Ok rows
          /\ (forall (k : nat) (row : amort_row),
                rows !! k = Some row ->
                Interest row + Principal row == c_monthly_pi c
                /\ 0 < Interest row
                /\ 0 < Principal row)
          /\ (forall (j k : nat) (a b : amort_row),
                (j < k)%nat -> rows !! j = Some a -> rows !! k = Some b ->
                Interest b < Interest a)).
Proof.
  split; [exact converging_inputs_valid |].
  destruct converging_inputs_result as (c & E).
  unfold returns. rewrite E.
  exact (schedule_payment_split converging_inputs c
           converging_inputs_valid E).
Defined.

(** ** The price loop *)

Lemma price_loop_count (i : inputs) (fuel : nat) :
  forall (done : nat) (price : Q) (ex : loop_exit),
    price_loop i fuel done price = Ok ex ->
    (done + Nat.min 1 fuel <= exit_iterations ex <= done + fuel)%nat
    /\ (exit_break ex = false ->
        exit_iterations ex = (done + fuel)%nat)
    /\ (exit_break ex = true ->
        down_payment_amount i < exit_price ex
        /\ exists t, estimate_total i (exit_price ex) = Ok t
                     /\ py_abs (t - max_payment_constraint i) < 10).
Proof.
  induction fuel as [| fuel IH]; intros done price ex H.
  - cbn in H. injection H as <-. cbn.
    split; [lia |]. split; [intros _; lia | discriminate].
  - cbn [price_loop] in H. cbv zeta in H.
    destruct (Qle_bool (price - down_payment_amount i) 0) eqn:Hloan.
    + destruct (IH _ _ _ H) as (Hn & Hnb & Hb).
      split; [destruct fuel; cbn in *; lia |].
      split; [intros Hf; rewrite (Hnb Hf); lia | exact Hb].
    + apply Qle_bool_false_iff in Hloan.
      apply bind_ok_inv in H as (t & Ht & H).
      destruct (Qlt_bool (py_abs (t - max_payment_constraint i)) 10) eqn:Htol.
      * injection H as <-. cbn.
        split; [lia |]. split; [discriminate |].
        intros _. split; [lra |].
        exists t. split; [exact Ht | now apply Qlt_bool_iff].
      * apply bind_ok_inv in H as (ratio & _ & H).
        destruct (IH _ _ _ H) as (Hn & Hnb & Hb).
        split; [destruct fuel; cbn in *; lia |].
        split; [intros Hf; rewrite (Hnb Hf); lia | exact Hb].
Qed.

(** X18.  Whatever the inputs, a max-affordability result comes after at
    least one and at most 10 passes of the loop; without [break] all 10
    passes were made; and after a [break] the estimated price is above the
    down payment, with an estimated payment within 10 of the target. *)
Theorem price_loop_passes (i : inputs) (ex : loop_exit) (c : calculation) :
  max_affordability_mode i = Ok (ex, c) ->
  (1 <= exit_iterations ex <= 10)%nat
  /\ (exit_break ex = false -> exit_iterations ex = 10%nat)
  /\ (exit_break ex = true ->
      down_payment_amount i < exit_price ex
      /\ exists t, estimate_total i (exit_price ex) = Ok t
                   /\ py_abs (t - max_payment_constraint i) < 10).
Proof.
  intros H. apply max_affordability_mode_inv in H as [Hloop _].
  destruct (price_loop_count i 10 0 seed_price ex Hloop) as (Hn & Hnb & Hb).
  split; [cbn in Hn; lia |]. split; [exact Hnb | exact Hb].
Qed.

Lemma price_loop_passes_witness :
  returns (max_affordability_mode converging_inputs)
    (fun r => (1 <= exit_iterations (fst r) <= 10)%nat).
Proof.
  destruct (max_affordability_mode_ok converging_inputs
              converging_inputs_valid) as (ex & c & E & _).
  unfold returns. rewrite E. cbn [fst].
  exact (proj1 (price_loop_passes converging_inputs ex c E)).
Defined.

Lemma indebted_inputs_valid : valid_inputs indebted_inputs.
Proof.
  constructor; cbn; try (split; lra); try lra; try exact I.
  - split; [discriminate | intros H; now contradiction H].
  - unfold loan_term_option. lia.
Qed.

Lemma price_loop_never_meets (i : inputs) (fuel : nat) :
  valid_inputs i -> max_payment_constraint i <= -10 ->
  forall (done : nat) (price : Q) (ex : loop_exit),
    price_loop i fuel done price = Ok ex -> exit_break ex = false.
Proof.
  intros Hvalid Htarget.
  induction fuel as [| fuel IH]; intros done price ex H.
  - cbn in H. injection H as <-. reflexivity.
  - cbn [price_loop] in H. cbv zeta in H.
    destruct (Qle_bool (price - down_payment_amount i) 0) eqn:Hloan.
    + exact (IH _ _ _ H).
    + apply Qle_bool_false_iff in Hloan.
      destruct (estimate_total_ok i Hvalid price) as (t & Ht & Htpos); [lra |].
      rewrite Ht, bind_ok in H.
      assert (Htol : Qlt_bool (py_abs (t - max_payment_constraint i)) 10
                     = false).
      { apply Qlt_bool_false_iff. unfold py_abs.
        rewrite Qabs_pos by lra. lra. }
      rewrite Htol in H.
      apply bind_ok_inv in H as (ratio & _ & H).
      exact (IH _ _ _ H).
Qed.

(** X19.  On inputs the sidebar admits whose existing debts leave a target
    payment of -10 or less, max-affordability mode still returns a result,
    but the loop never meets its tolerance: it makes all 10 passes without
    [break], and the result it returns raises the DTI banner. *)
Theorem debts_over_allowance (i : inputs) :
  valid_inputs i -> max_payment_constraint i <= -10 ->
  exists ex c,
    max_affordability_mode i = Ok (ex, c)
    /\ exit_break ex = false
    /\ exit_iterations ex = 10%nat
    /\ dti_limit_error i c = true.
Proof.
  intros Hvalid Htarget.
  destruct (max_affordability_mode_ok i Hvalid) as (ex & c & E & _).
  exists ex, c. split; [exact E |].
  pose proof E as E'.
  apply max_affordability_mode_inv in E' as [Hloop Hfin].
  pose proof (price_loop_never_meets i 10 Hvalid Htarget 0%nat seed_price ex
                Hloop) as Hb.
  split; [exact Hb |]. split.
  - destruct (price_loop_count i 10 0 seed_price ex Hloop) as (_ & Hnb & _).
    exact (Hnb Hb).
  - apply finish_max_affordability_inv in Hfin as (Hp & _ & Hfacts).
    assert (Hinc : 0 < annual_income i) by (destruct Hvalid; lra).
    apply (dti_limit_error_target i c Hfacts Hinc).
    destruct (finish_max_affordability_ok i Hvalid (exit_price ex))
      as (c' & t & Ec & Et & Htot & _).
    pose proof (py_max_floor i (exit_price ex)) as Hfloor.
    destruct (estimate_total_ok i Hvalid _ Hfloor) as (t' & Et' & Htpos).
    rewrite Et in Et'. injection Et' as <-.
    assert (Hc : c' = c).
    { apply max_affordability_mode_inv in E as [_ Hfin'].
      rewrite Ec in Hfin'. injection Hfin' as ->. reflexivity. }
    subst c'. rewrite Htot. lra.
Qed.

Lemma debts_over_allowance_witness :
  valid_inputs indebted_inputs
  /\ max_payment_constraint indebted_inputs <= -10
  /\ exists ex c,
       max_affordability_mode indebted_inputs = Ok (ex, c)
       /\ exit_break ex = false
       /\ exit_iterations ex = 10%nat
       /\ dti_limit_error indebted_inputs c = true.
Proof.
  assert (H : max_payment_constraint indebted_inputs <= -10)
    by (vm_compute; discriminate).
  split; [exact indebted_inputs_valid |]. split; [exact H |].
  exact (debts_over_allowance indebted_inputs indebted_inputs_valid H).
Defined.

(** ** Saving a scenario *)

Lemma save_scenario_last (scenarios : list scenario) (now : string)
    (i : inputs) :
  exists entry,
    last (save_scenario scenarios now i) = Some entry
    /\ snapshot_inputs entry
       = (now, annual_income i, home_price i, down_payment_amount i,
          interest_rate i, loan_term i)
    /\ s_monthly_payment entry = None
    /\ s_back_end_dti entry = None
    /\ s_ltv entry = None.
Proof.
  unfold save_scenario, pop_front. cbv zeta.
  exists (Build_scenario now (annual_income i) (home_price i)
            (down_payment_amount i) (interest_rate i) (loan_term i)
            None None None).
  split; [| cbn; repeat split].
  destruct (2 <? _)%nat eqn:E.
  - destruct scenarios as [| s0 scenarios]; [discriminate E |].
    cbn [app drop]. rewrite drop_0. apply last_snoc.
  - apply last_snoc.
Qed.

Lemma update_last_scenario_last (scenarios : list scenario) (c : calculation) :
  last (update_last_scenario scenarios c)
  = update_computed c <$> last scenarios.
Proof.
  unfold update_last_scenario.
  rewrite !last_lookup, length_alter. apply list_lookup_alter_eq.
Qed.

(** X26.  The scenario list of a session never holds more than 2 entries,
    and a save on a full list drops the oldest entry and appends the new
    one.  A run without the save button adds and removes no entry, keeps
    the inputs recorded in every entry, leaves every entry but the newest
    as it is, and changes nothing at all when the calculation stops with an
    error. *)
Theorem scenario_history_capacity :
  (forall scenarios, session_scenarios scenarios -> (length scenarios <= 2)%nat)
  /\ (forall s1 s2 now i,
        exists entry,
          save_scenario [s1; s2] now i = [s2; entry]
          /\ snapshot_inputs entry
             = (now, annual_income i, home_price i, down_payment_amount i,
                interest_rate i, loan_term i))
  /\ (forall scenarios now b i,
        b <> SaveScenario ->
        let scenarios' := fst (script_run scenarios now b i) in
        snapshot_inputs <$> scenarios' = snapshot_inputs <$> scenarios
        /\ (forall k, (S k < length scenarios)%nat ->
                      scenarios' !! k = scenarios !! k)
        /\ (is_ok (core_calculation i) = false -> scenarios' = scenarios)).
Proof.
  split; [| split].
  - intros scenarios H. induction H as [| scenarios now b i _ IH].
    + cbn. lia.
    + apply script_run_length. exact IH.
  - intros s1 s2 now i. eexists. split; reflexivity.
  - intros scenarios now b i Hb. cbv zeta.
    rewrite script_run_scenarios. cbv zeta.
    assert (E : match b with
                | SaveScenario => save_scenario scenarios now i
                | NoButton | ResetInputs => scenarios
                end = scenarios) by (destruct b; congruence).
    rewrite E. clear E.
    destruct (core_calculation i) as [c | e].
    + split; [apply update_last_scenario_inputs |].
      split; [intros k Hk; now apply update_last_scenario_earlier |].
      discriminate.
    + split; [reflexivity |]. split; reflexivity.
Qed.

Lemma scenario_history_capacity_witness :
  let saved := fst (script_run [] "10:00:00" SaveScenario pmi_charged_inputs) in
  session_scenarios saved
  /\ (length saved <= 2)%nat
  /\ NoButton <> SaveScenario
  /\ snapshot_inputs
       <$> fst (script_run saved "10:00:05" NoButton pmi_omitted_inputs)
     = snapshot_inputs <$> saved.
Proof.
  cbv zeta.
  assert (H1 : session_scenarios
                 (fst (script_run [] "10:00:00" SaveScenario pmi_charged_inputs)))
    by (apply session_run, session_start).
  assert (H2 : NoButton <> SaveScenario) by discriminate.
  pose proof scenario_history_capacity as (Hlen & _ & Hframe).
  split; [exact H1 |].
  split; [exact (Hlen _ H1) |].
  split; [exact H2 |].
  exact (proj1 (Hframe _ "10:00:05" NoButton pmi_omitted_inputs H2)).
Defined.

(** X20.  A run started by "Save Scenario" leaves as newest entry the
    inputs of that run; when the calculation completes, the entry carries
    its total payment, back-end DTI and LTV, and when it stops with an
    error the three computed fields stay empty.  Without the save button an
    empty history stays empty. *)
Theorem save_then_run (scenarios : list scenario) (now : string) (i : inputs) :
  (exists entry,
     last (fst (script_run scenarios now SaveScenario i)) = Some entry
     /\ snapshot_inputs entry
        = (now, annual_income i, home_price i, down_payment_amount i,
           interest_rate i, loan_term i)
     /\ match core_calculation i with
        | Ok c =>
            s_monthly_payment entry = Some (c_total_monthly_payment c)
            /\ s_back_end_dti entry = Some (c_back_end_dti c)
            /\ s_ltv entry = Some (c_ltv c)
        | Err _ =>
            s_monthly_payment entry = None
            /\ s_back_end_dti entry = None
            /\ s_ltv entry = None
        end)
  /\ (forall b, b <> SaveScenario -> fst (script_run [] now b i) = []).
Proof.
  split.
  - rewrite script_run_scenarios. cbv zeta.
    destruct (save_scenario_last scenarios now i)
      as (entry & Hlast & Hin & H1 & H2 & H3).
    destruct (core_calculation i) as [c | e].
    + exists (update_computed c entry).
      rewrite update_last_scenario_last, Hlast.
      split; [reflexivity |]. split; [exact Hin |]. cbn. repeat split.
    + exists entry. repeat (split; [assumption |]). assumption.
  - intros b Hb. rewrite script_run_scenarios. cbv zeta.
    destruct b; [| congruence |]; destruct (core_calculation i); reflexivity.
Qed.

Lemma save_then_run_witness :
  NoButton <> SaveScenario
  /\ fst (script_run [] "10:00:00" NoButton pmi_charged_inputs) = [].
Proof.
  assert (H : NoButton <> SaveScenario) by discriminate.
  split; [exact H |].
  exact (proj2 (save_then_run [] "10:00:00" pmi_charged_inputs) NoButton H).
Defined.

(** ** Sensitivity analysis *)

Lemma for_each_lookup {A B : Type} (f : A -> result B) (l : list A) :
  forall ys,
    for_each f l = Ok ys ->
    length ys = length l
    /\ forall (k : nat) (y : B),
         ys !! k = Some y -> exists x, l !! k = Some x /\ f x = Ok y.
Proof.
  induction l as [| x l IH]; intros ys H.
  - cbn in H. injection H as <-. split; [reflexivity |].
    intros k y Hk. discriminate Hk.
  - cbn [for_each] in H.
    apply bind_ok_inv in H as (y0 & Hy0 & H).
    apply bind_ok_inv in H as (ys0 & Hys0 & H).
    injection H as <-.
    destruct (IH ys0 Hys0) as [Hlen Hrows].
    split; [cbn; rewrite Hlen; reflexivity |].
    intros [| k] y Hk; cbn in Hk.
    + injection Hk as <-. exists x. split; [reflexivity | exact Hy0].
    + destruct (Hrows k y Hk) as (x' & Hx' & Hf).
      exists x'. split; [exact Hx' | exact Hf].
Qed.

Lemma for_each_ok {A B : Type} (f : A -> result B) (l : list A) :
  Forall (fun x => exists y, f x = Ok y) l -> exists ys, for_each f l = Ok ys.
Proof.
  induction 1 as [| x l [y Hy] _ [ys Hys]].
  - exists []. reflexivity.
  - exists (y :: ys). cbn [for_each]. rewrite Hy, bind_ok, Hys, bind_ok.
    reflexivity.
Qed.

Lemma nondecreasing_cons (x : Q) (l : list Q) :
  Forall (fun y => x <= y) l -> nondecreasing l -> nondecreasing (x :: l).
Proof.
  intros Hall Hl j k a b Hjk Hj Hk.
  destruct j as [| j]; cbn in Hj.
  - injection Hj as <-. destruct k as [| k]; cbn in Hk.
    + injection Hk as <-. apply Qle_refl.
    + rewrite Forall_forall in Hall. apply Hall.
      eapply list_elem_of_lookup_2. exact Hk.
  - destruct k as [| k]; [lia |]. cbn in Hk.
    apply (Hl j k a b); [lia | assumption | assumption].
Qed.

Lemma nondecreasing_nil : nondecreasing [].
Proof. intros j k a b _ Hj. discriminate Hj. Qed.

(** Five amounts in a chain. *)
Lemma nondecreasing_chain (a b c d e : Q) :
  a <= b -> b <= c -> c <= d -> d <= e -> nondecreasing [a; b; c; d; e].
Proof.
  intros Hab Hbc Hcd Hde.
  repeat (apply nondecreasing_cons;
          [repeat (constructor; [lra |]); constructor |]).
  apply nondecreasing_nil.
Qed.

(** X21.  For a step >= 0 the five percentages of the down-payment chart
    are in ascending order and within [0, 50] when the down-payment percent
    is itself within [0, 50]; when it is above 50 the list is out of
    order, because the middle entry is not capped while the two after it
    are. *)
Theorem dp_percents_ordered (i : inputs) (dp_step : Q) :
  0 <= dp_step ->
  (0 <= down_payment_percent i <= 50 ->
     nondecreasing (dp_percents i dp_step)
     /\ Forall (fun p => 0 <= p <= 50) (dp_percents i dp_step))
  /\ (50 < down_payment_percent i -> ~ nondecreasing (dp_percents i dp_step)).
Proof.
  intros Hs. unfold dp_percents.
  set (p := down_payment_percent i). clearbody p.
  split.
  - intros Hp.
    destruct (py_max_cases 0 (p - dp_step * 2)) as [[? Ea] | [? Ea]];
    destruct (py_max_cases 0 (p - dp_step)) as [[? Eb] | [? Eb]];
    destruct (py_min_cases 50 (p + dp_step)) as [[? Ed] | [? Ed]];
    destruct (py_min_cases 50 (p + dp_step * 2)) as [[? Ee] | [? Ee]];
    (split;
     [ apply nondecreasing_chain; rewrite ?Ea, ?Eb, ?Ed, ?Ee; lra
     | repeat (constructor; [rewrite ?Ea, ?Eb, ?Ed, ?Ee; lra |]);
       constructor ]).
  - intros Hp Hsorted.
    pose proof (Hsorted 2%nat 3%nat p (py_min 50 (p + dp_step))
                  ltac:(lia) eq_refl eq_refl) as H.
    destruct (py_min_cases 50 (p + dp_step)) as [[? Ed] | [? Ed]];
      rewrite Ed in H; lra.
Qed.

Lemma dp_percents_ordered_witness :
  0 <= 2
  /\ (0 <= down_payment_percent pmi_charged_inputs <= 50
      /\ nondecreasing (dp_percents pmi_charged_inputs 2))
  /\ (50 < down_payment_percent fully_paid_inputs
      /\ ~ nondecreasing (dp_percents fully_paid_inputs 2)).
Proof.
  assert (H1 : 0 <= 2) by lra.
  assert (H2 : 0 <= down_payment_percent pmi_charged_inputs <= 50)
    by (cbn; lra).
  assert (H3 : 50 < down_payment_percent fully_paid_inputs) by (cbn; lra).
  split; [exact H1 |]. split.
  - split; [exact H2 |].
    exact (proj1 (proj1 (dp_percents_ordered pmi_charged_inputs 2 H1) H2)).
  - split; [exact H3 |].
    exact (proj2 (dp_percents_ordered fully_paid_inputs 2 H1) H3).
Defined.

(** The payment of the down-payment chart at one percentage, through the
    payment factor of the rate and term. *)
Lemma dp_sensitivity_payment_factor (i : inputs) (c : calculation) :
  valid_inputs i ->
  exists factor, 0 < factor
    /\ forall dp_pct, exists payment,
         dp_sensitivity_payment i c dp_pct = Ok payment
         /\ payment
            == factor * (c_home_price c - c_home_price c * dp_pct / 100)
               + c_monthly_tax c + c_monthly_insurance c + c_monthly_hoa c
               + (if Qlt_bool dp_pct 20
                  then (c_home_price c - c_home_price c * dp_pct / 100)
                       * pmi_rate i / 100 / 12
                  else 0).
Proof.
  intros Hvalid.
  pose proof (valid_monthly_rate i Hvalid) as Hrate.
  pose proof (valid_total_months i Hvalid) as Hmonths.
  destruct (pmt_factor (interest_rate i / 100 / 12) (loan_term i * 12)
              ltac:(lra) ltac:(lia)) as (f & Hf & Hpmt).
  exists f. split; [exact Hf |].
  intros dp_pct. unfold dp_sensitivity_payment. cbv zeta.
  destruct (Hpmt (c_home_price c - c_home_price c * dp_pct / 100))
    as (m & Em & Qm).
  rewrite Em, bind_ok. eexists. split; [reflexivity |].
  rewrite Qm. reflexivity.
Qed.

Lemma dp_sensitivity_payment_antitone (i : inputs) (c : calculation)
    (p p' y y' : Q) :
  valid_inputs i -> 0 < c_home_price c -> p <= p' ->
  dp_sensitivity_payment i c p = Ok y ->
  dp_sensitivity_payment i c p' = Ok y' ->
  y' <= y.
Proof.
  intros Hvalid Hprice Hpp Hy Hy'.
  destruct (dp_sensitivity_payment_factor i c Hvalid) as (f & Hf & Hpay).
  destruct (Hpay p) as (z & Ez & Qz). rewrite Hy in Ez. injection Ez as <-.
  destruct (Hpay p') as (z' & Ez' & Qz'). rewrite Hy' in Ez'.
  injection Ez' as <-.
  rewrite Qz, Qz'. clear Qz Qz' Hy Hy' Hpay.
  destruct Hvalid.
  set (price := c_home_price c) in *. clearbody price.
  set (L := price - price * p / 100).
  set (L' := price - price * p' / 100).
  assert (HL : L' <= L).
  { unfold L, L'. const_div.
    assert (0 <= price * (p' - p)) by (apply Qmult_le_0_compat; lra).
    lra. }
  assert (HfL : 0 <= f * (L - L')) by (apply Qmult_le_0_compat; lra).
  destruct (Qlt_bool p 20) eqn:G; destruct (Qlt_bool p' 20) eqn:G'.
  - assert (0 <= (L - L') * pmi_rate i) by (apply Qmult_le_0_compat; lra).
    const_div. lra.
  - apply Qlt_bool_iff in G.
    assert (0 <= L).
    { unfold L. const_div.
      assert (0 <= price * (100 - p)) by (apply Qmult_le_0_compat; lra).
      lra. }
    assert (0 <= L * pmi_rate i) by (apply Qmult_le_0_compat; lra).
    const_div. lra.
  - apply Qlt_bool_false_iff in G. apply Qlt_bool_iff in G'. lra.
  - lra.
Qed.

(** The price of the rate chart at a positive rate: the loan the payment
    left after tax, insurance and HOA retires, plus the down payment. *)
Lemma rate_sensitivity_price_positive (i : inputs) (c : calculation)
    (constraint rate : Q) :
  (0 <= loan_term i * 12)%Z -> 0 < rate ->
  exists price,
    rate_sensitivity_price i c constraint rate = Ok price
    /\ price
       == remaining_balance (rate / 100 / 12)
            (constraint
             - (c_monthly_tax c + c_monthly_insurance c + c_monthly_hoa c))
            (Z.to_nat (loan_term i * 12))
          + down_payment_amount i.
Proof.
  intros Hn Hrate. unfold rate_sensitivity_price. cbv zeta.
  assert (Hm : 0 < rate / 100 / 12) by (const_div; lra).
  assert (E : Qlt_bool 0 (rate / 100 / 12) = true) by now apply Qlt_bool_iff.
  rewrite E.
  destruct (invert_pmt_remaining_balance
              (constraint
               - (c_monthly_tax c + c_monthly_insurance c + c_monthly_hoa c))
              (rate / 100 / 12) (loan_term i * 12) ltac:(lra) Hn)
    as (loan & El & Ql).
  rewrite El, bind_ok. eexists. split; [reflexivity |].
  rewrite Ql. reflexivity.
Qed.

(** X25.  In max-affordability mode on inputs the sidebar admits, with a
    step >= 0 that keeps the lowest rate [interest_rate - 2 * rate_step]
    positive and a target payment that covers tax, insurance and HOA, the
    rate chart is drawn from five prices; a higher rate never has the
    higher price, and no price is below the down payment. *)
Theorem rate_sensitivity_nonincreasing (i : inputs) (c : calculation)
    (rate_step : Q) :
  valid_inputs i -> price_mode i = FindMaxAffordability ->
  0 <= rate_step -> 0 < interest_rate i - rate_step * 2 ->
  0 <= max_payment_constraint i
       - (c_monthly_tax c + c_monthly_insurance c + c_monthly_hoa c) ->
  exists prices,
    rate_sensitivity i c rate_step = Drawn prices
    /\ length prices = 5%nat
    /\ nonincreasing prices
    /\ Forall (fun price => down_payment_amount i <= price) prices.
Proof.
  intros Hvalid Hmode Hs Hlow Hpi.
  pose proof (valid_total_months i Hvalid) as Hmonths.
  assert (Hn : (0 <= loan_term i * 12)%Z) by lia.
  unfold rate_sensitivity, bound_max_payment_constraint. rewrite Hmode.
  set (target := max_payment_constraint i) in *. clearbody target.
  set (r := interest_rate i) in *.
  assert (Hrates : Forall (fun x => 0 < x) (sensitivity_rates i rate_step)).
  { unfold sensitivity_rates. fold r.
    repeat (constructor; [lra |]). constructor. }
  assert (Hsorted : nondecreasing (sensitivity_rates i rate_step)).
  { unfold sensitivity_rates. fold r. apply nondecreasing_chain; lra. }
  destruct (for_each_ok (rate_sensitivity_price i c target)
              (sensitivity_rates i rate_step)) as [prices E].
  { eapply Forall_impl; [exact Hrates |]. cbn. intros x Hx.
    destruct (rate_sensitivity_price_positive i c target x Hn Hx)
      as (y & Hy & _).
    exists y. exact Hy. }
  rewrite E. exists prices. split; [reflexivity |].
  destruct (for_each_lookup _ _ _ E) as [Hlen Hrows].
  split; [rewrite Hlen; reflexivity |].
  rewrite Forall_forall in Hrates.
  split.
  - intros j k y y' Hjk Hj Hk.
    destruct (Hrows j y Hj) as (x & Hx & Hfx).
    destruct (Hrows k y' Hk) as (x' & Hx' & Hfx').
    pose proof (Hsorted j k x x' Hjk Hx Hx') as Hxx.
    pose proof (Hrates x (list_elem_of_lookup_2 _ _ _ Hx)) as Hxpos.
    pose proof (Hrates x' (list_elem_of_lookup_2 _ _ _ Hx')) as Hxpos'.
    destruct (rate_sensitivity_price_positive i c target x Hn Hxpos)
      as (z & Ez & Qz).
    destruct (rate_sensitivity_price_positive i c target x' Hn Hxpos')
      as (z' & Ez' & Qz').
    rewrite Hfx in Ez. injection Ez as <-.
    rewrite Hfx' in Ez'. injection Ez' as <-.
    rewrite Qz, Qz'.
    pose proof (remaining_balance_rate_antitone (x / 100 / 12) (x' / 100 / 12)
                  (target - (c_monthly_tax c + c_monthly_insurance c
                             + c_monthly_hoa c))
                  (Z.to_nat (loan_term i * 12)) Hpi
                  ltac:(const_div; lra) ltac:(const_div; lra)).
    lra.
  - apply Forall_forall. intros y Hy.
    apply list_elem_of_lookup_1 in Hy as [k Hk].
    destruct (Hrows k y Hk) as (x & Hx & Hfx).
    pose proof (Hrates x (list_elem_of_lookup_2 _ _ _ Hx)) as Hxpos.
    destruct (rate_sensitivity_price_positive i c target x Hn Hxpos)
      as (z & Ez & Qz).
    rewrite Hfx in Ez. injection Ez as <-.
    rewrite Qz.
    pose proof (remaining_balance_nonneg (x / 100 / 12)
                  (target - (c_monthly_tax c + c_monthly_insurance c
                             + c_monthly_hoa c))
                  (Z.to_nat (loan_term i * 12))
                  ltac:(const_div; lra) Hpi).
    lra.
Qed.

Lemma rate_sensitivity_nonincreasing_witness :
  valid_inputs converging_inputs
  /\ price_mode converging_inputs = FindMaxAffordability
  /\ 0 <= 0.25
  /\ 0 < interest_rate converging_inputs - 0.25 * 2
  /\ 0 <= max_payment_constraint converging_inputs
          - (c_monthly_tax seed_price_calculation
             + c_monthly_insurance seed_price_calculation
             + c_monthly_hoa seed_price_calculation)
  /\ exists prices,
       rate_sensitivity converging_inputs seed_price_calculation 0.25
       = Drawn prices
       /\ length prices = 5%nat
       /\ nonincreasing prices
       /\ Forall (fun price => down_payment_amount converging_inputs <= price)
                 prices.
Proof.
  assert (H1 : price_mode converging_inputs = FindMaxAffordability)
    by reflexivity.
  assert (H2 : 0 <= 0.25) by lra.
  assert (H3 : 0 < interest_rate converging_inputs - 0.25 * 2) by (cbn; lra).
  assert (H4 : 0 <= max_payment_constraint converging_inputs
                    - (c_monthly_tax seed_price_calculation
                       + c_monthly_insurance seed_price_calculation
                       + c_monthly_hoa seed_price_calculation))
    by (vm_compute; discriminate).
  split; [exact converging_inputs_valid |].
  split; [exact H1 |]. split; [exact H2 |]. split; [exact H3 |].
  split; [exact H4 |].
  exact (rate_sensitivity_nonincreasing converging_inputs
           seed_price_calculation 0.25 converging_inputs_valid H1 H2 H3 H4).
Defined.

(** The loop of the rate chart has a price for every rate: the formula at
    a positive rate, the price of the result otherwise. *)
Lemma rate_sensitivity_price_ok (i : inputs) (c : calculation)
    (constraint rate : Q) :
  (0 <= loan_term i * 12)%Z ->
  exists price, rate_sensitivity_price i c constraint rate = Ok price.
Proof.
  intros Hn.
  destruct (Qlt_le_dec 0 rate) as [Hpos | Hle].
  - destruct (rate_sensitivity_price_positive i c constraint rate Hn Hpos)
      as (price & E & _).
    exists price. exact E.
  - unfold rate_sensitivity_price. cbv zeta.
    assert (E : Qlt_bool 0 (rate / 100 / 12) = false)
      by (apply Qlt_bool_false_iff; const_div; lra).
    rewrite E. eexists. reflexivity.
Qed.

(** X22.  In max-affordability mode on inputs the sidebar admits, with a
    down-payment percent within [0, 50] and a down-payment step >= 0, the
    "Charts" tab runs to its end whatever the rate step: the schedule and
    the rate chart raise nothing, and the down-payment chart is drawn from
    five payments, one per percentage, of which a higher percentage never
    has the higher payment. *)
Theorem dp_sensitivity_nonincreasing (i : inputs) (c : calculation)
    (rate_step dp_step : Q) :
  valid_inputs i -> price_mode i = FindMaxAffordability ->
  core_calculation i = Ok c ->
  0 <= dp_step -> 0 <= down_payment_percent i <= 50 ->
  exists ch,
    charts_tab i c rate_step dp_step = Drawn ch
    /\ length (ch_payments ch) = 5%nat
    /\ nonincreasing (ch_payments ch).
Proof.
  intros Hvalid Hmode Hc Hs Hp.
  destruct (core_calculation_inv i c Hc) as (_ & _ & Hdp).
  assert (Hprice : 0 < c_home_price c) by (destruct Hvalid; lra).
  pose proof (valid_total_months i Hvalid) as Hmonths.
  assert (Hn : (0 <= loan_term i * 12)%Z) by lia.
  destruct (drawn_schedule_rows i c Hvalid Hc) as (rows & Erows & _).
  destruct (for_each_ok
              (rate_sensitivity_price i c (max_payment_constraint i))
              (sensitivity_rates i rate_step)) as [prices Eprices].
  { apply Forall_forall. intros x _.
    apply rate_sensitivity_price_ok. exact Hn. }
  destruct (dp_sensitivity_payment_factor i c Hvalid) as (f & Hf & Hpay).
  destruct (for_each_ok (dp_sensitivity_payment i c) (dp_percents i dp_step))
    as [payments E].
  { apply Forall_forall. intros x _.
    destruct (Hpay x) as (y & Hy & _). exists y. exact Hy. }
  exists {| ch_amortization := rows; ch_prices := prices;
            ch_payments := payments |}.
  split.
  { unfold charts_tab, rate_sensitivity, bound_max_payment_constraint.
    rewrite Erows, Hmode, Eprices, E. reflexivity. }
  cbn [ch_payments].
  destruct (for_each_lookup _ _ _ E) as [Hlen Hrows].
  split; [rewrite Hlen; reflexivity |].
  assert (Hsorted : nondecreasing (dp_percents i dp_step)).
  { unfold dp_percents.
    set (p := down_payment_percent i) in *. clearbody p.
    destruct (py_max_cases 0 (p - dp_step * 2)) as [[? Ea] | [? Ea]];
    destruct (py_max_cases 0 (p - dp_step)) as [[? Eb] | [? Eb]];
    destruct (py_min_cases 50 (p + dp_step)) as [[? Ed] | [? Ed]];
    destruct (py_min_cases 50 (p + dp_step * 2)) as [[? Ee] | [? Ee]];
    apply nondecreasing_chain; rewrite ?Ea, ?Eb, ?Ed, ?Ee; lra. }
  intros j k y y' Hjk Hj Hk.
  destruct (Hrows j y Hj) as (x & Hx & Hfx).
  destruct (Hrows k y' Hk) as (x' & Hx' & Hfx').
  apply (dp_sensitivity_payment_antitone i c x x' y y' Hvalid Hprice);
    [| assumption | assumption].
  exact (Hsorted j k x x' Hjk Hx Hx').
Qed.

Lemma dp_sensitivity_nonincreasing_witness :
  valid_inputs converging_inputs
  /\ price_mode converging_inputs = FindMaxAffordability
  /\ 0 <= 2 /\ 0 <= down_payment_percent converging_inputs <= 50
  /\ returns (core_calculation converging_inputs)
       (fun c => exists ch,
          charts_tab converging_inputs c 0.25 2 = Drawn ch
          /\ length (ch_payments ch) = 5%nat
          /\ nonincreasing (ch_payments ch)).
Proof.
  assert (H0 : price_mode converging_inputs = FindMaxAffordability)
    by reflexivity.
  assert (H1 : 0 <= 2) by lra.
  assert (H2 : 0 <= down_payment_percent converging_inputs <= 50)
    by (cbn; lra).
  split; [exact converging_inputs_valid |]. split; [exact H0 |].
  split; [exact H1 |]. split; [exact H2 |].
  destruct converging_inputs_result as (c & E).
  unfold returns. rewrite E.
  exact (dp_sensitivity_nonincreasing converging_inputs c 0.25 2
           converging_inputs_valid H0 E H1 H2).
Defined.
